(** * Draper adder, quantum Fourier transform and gate-basis transformer

    A shallow embedding of [src/quantum_fourier_transform.py],
    [src/drapper.py] and [src/gate_basis_transformer.py], with the noise
    overlay of [src/quantum_noise.py] and the parts of
    [src/quantum_noise_analyse.py] that run without a backend.

    Python integers are [Z]; Python floats are idealised as real numbers
    ([R]): rounding is left out, the range of the floats is not, so
    [2 * np.pi / 2 ** k] is [2 * PI / powerRZ 2 k] as long as [2 ** k]
    converts to a float, and an [OverflowError] beyond.  A Python
    exception is a [Raise] in the [result] monad; a circuit object that the
    source mutates is threaded through explicitly. *)

From Stdlib Require Import QArith.
From Stdlib Require Import Reals Lra ZArith List String Ascii Lia Bool.
From Stdlib Require Import FunctionalExtensionality.
From stdpp Require Import base option list gmap strings.

Import ListNotations.
Local Open Scope Z_scope.

(** ** Exceptions *)

Inductive error : Set :=
| ValueError        (* raised by the repository's own guard *)
| IndexError        (* Python list index out of range *)
| CircuitError      (* raised inside qiskit's circuit API *)
| QiskitError       (* raised inside qiskit's synthesis routines *)
| OverflowError     (* an integer too large to convert to a float *)
| ZeroDivisionError. (* float division by zero *)

Inductive result (A : Type) : Type :=
| Ok (a : A)
| Raise (e : error).
Arguments Ok {A} a.
Arguments Raise {A} e.

#[global] Instance result_ret : MRet result := fun A a => Ok a.
#[global] Instance result_bind : MBind result := fun A B f m =>
  match m with
  | Ok a => f a
  | Raise e => Raise e
  end.

(** [for x in l: s = body(s, x)], stopping at the first exception. *)
Fixpoint for_in {S A : Type} (l : list A) (s : S)
    (body : S -> A -> result S) : result S :=
  match l with
  | [] => Ok s
  | x :: l' => s' ← body s x; for_in l' s' body
  end.

(** [[f(x) for x in l]], stopping at the first exception. *)
Fixpoint map_result {A B : Type} (f : A -> result B) (l : list A)
    : result (list B) :=
  match l with
  | [] => Ok []
  | x :: l' => y ← f x; ys ← map_result f l'; Ok (y :: ys)
  end.

(** Python's [range(n)] and [range(lo, hi)]. *)
Definition range2 (lo hi : Z) : list Z :=
  map (fun k => lo + Z.of_nat k) (seq 0 (Z.to_nat (hi - lo))).
Definition range (n : Z) : list Z := range2 0 n.

(** Python's [l[i]]: a negative index counts from the end. *)
Definition getitem {A : Type} (l : list A) (i : Z) : result A :=
  let k := if i <? 0 then Z.of_nat (length l) + i else i in
  if k <? 0 then Raise IndexError
  else match nth_error l (Z.to_nat k) with
       | Some x => Ok x
       | None => Raise IndexError
       end.

(** Python's [int.bit_length]. *)
Definition bit_length (x : Z) : Z :=
  if x =? 0 then 0 else Z.log2 (Z.abs x) + 1.

(** Python's [x >= 2 ** n] for integers [x], [n].  For [n >= 0] the power is
    an exact integer.  For [n < 0] it is a float strictly between 0 and 1
    (so the test is [x >= 1]) as long as it is representable, and it
    underflows to [0.0] below the smallest subnormal [2 ** -1074]. *)
Definition ge_pow2 (x n : Z) : bool :=
  if 0 <=? n then 2 ^ n <=? x
  else if -1074 <=? n then 1 <=? x
  else 0 <=? x.

(** Python's [2 * np.pi / (2 ** k)] for an integer [k].  For [k >= 0] the
    power is an exact integer, which the division converts to a float: from
    [2 ** 1024] on that conversion raises [OverflowError].  For [k < 0] the
    power is the float [2.0 ** k], which underflows to [0.0] below the
    smallest subnormal [2 ** -1074], where the division raises
    [ZeroDivisionError].  Where a float is returned it is idealised as the
    real quotient (also for [-1074 <= k <= -1022], where the float quotient
    is infinite). *)
Definition two_pi_over_pow2 (k : Z) : result R :=
  if 1024 <=? k then Raise OverflowError
  else if k <? -1074 then Raise ZeroDivisionError
  else Ok (2 * PI / powerRZ 2 k)%R.

(** ** The circuit library (qiskit's [QuantumCircuit], as far as the
    repository uses it) *)

Module Qiskit.

(** Operators.  The first eleven are the standard gates the repository names;
    [Opaque] is any other operator, known by its name and qubit count. *)
Inductive gate : Type :=
| XGate
| HGate
| CPhaseGate (theta : R)
| PhaseGate (theta : R)
| SwapGate
| Measure
| IGate
| RZGate (phi : R)
| SXGate
| SXdgGate
| CXGate
| Opaque (name : string) (nq : nat).

Definition name (g : gate) : string :=
  match g with
  | XGate => "x"
  | HGate => "h"
  | CPhaseGate _ => "cp"
  | PhaseGate _ => "p"
  | SwapGate => "swap"
  | Measure => "measure"
  | IGate => "id"
  | RZGate _ => "rz"
  | SXGate => "sx"
  | SXdgGate => "sxdg"
  | CXGate => "cx"
  | Opaque s _ => s
  end.

Definition gate_num_qubits (g : gate) : nat :=
  match g with
  | CPhaseGate _ | SwapGate | CXGate => 2
  | Opaque _ n => n
  | _ => 1
  end.

Definition gate_num_clbits (g : gate) : nat :=
  match g with
  | Measure => 1
  | _ => 0
  end.

(** One entry of [circuit.data]: operator, qubit indices, classical bits. *)
Record instruction : Type := Instruction {
  operation : gate;
  qubits : list Z;
  clbits : list Z
}.

Record QuantumCircuit : Type := Circuit {
  num_qubits : Z;
  num_clbits : Z;
  data : list instruction
}.

(** [QuantumCircuit(n, m)]; a register of negative size is refused. *)
Definition new_circuit (n m : Z) : result QuantumCircuit :=
  if (n <? 0) || (m <? 0) then Raise CircuitError
  else Ok (Circuit n m []).

(** A bit specifier is a Python index into the register: negative indices
    count from the end, anything else out of range is refused. *)
Definition bit_index (size i : Z) : result Z :=
  if (0 <=? i) && (i <? size) then Ok i
  else if (- size <=? i) && (i <? 0) then Ok (size + i)
  else Raise CircuitError.

Fixpoint has_duplicates (l : list Z) : bool :=
  match l with
  | [] => false
  | x :: l' => existsb (Z.eqb x) l' || has_duplicates l'
  end.

Definition push (c : QuantumCircuit) (i : instruction) : QuantumCircuit :=
  Circuit (num_qubits c) (num_clbits c) (data c ++ [i]).

(** The operators whose argument broadcast reads [qargs[0]] and
    [cargs[0]] before any check of its own. *)
Definition measures (g : gate) : bool :=
  match g with
  | Measure => true
  | _ => false
  end.

(** [circuit.append(g, qargs, cargs)] for one operator application (no
    broadcast over registers).  The bit specifiers are resolved first;
    a measurement without a qubit or without a classical bit then fails
    on the index 0 of an empty list; any other operator is refused when
    the numbers of arguments are not its own, or a qubit is named
    twice. *)
Definition append (c : QuantumCircuit) (g : gate) (qargs cargs : list Z)
    : result QuantumCircuit :=
  qs ← map_result (bit_index (num_qubits c)) qargs;
  cs ← map_result (bit_index (num_clbits c)) cargs;
  if measures g && ((length qs =? 0)%nat || (length cs =? 0)%nat)
  then Raise IndexError
  else if negb ((length qs =? gate_num_qubits g)%nat
                && (length cs =? gate_num_clbits g)%nat)
  then Raise CircuitError
  else if has_duplicates qs then Raise CircuitError
  else Ok (push c (Instruction g qs cs)).

Definition x (c : QuantumCircuit) (q : Z) := append c XGate [q] [].
Definition h (c : QuantumCircuit) (q : Z) := append c HGate [q] [].
Definition p (c : QuantumCircuit) (theta : R) (q : Z) :=
  append c (PhaseGate theta) [q] [].
Definition cp (c : QuantumCircuit) (theta : R) (control target : Z) :=
  append c (CPhaseGate theta) [control; target] [].
Definition swap (c : QuantumCircuit) (q1 q2 : Z) :=
  append c SwapGate [q1; q2] [].
Definition rz (c : QuantumCircuit) (phi : R) (q : Z) :=
  append c (RZGate phi) [q] [].
Definition sx (c : QuantumCircuit) (q : Z) := append c SXGate [q] [].

(** [circuit.measure(qs, cs)] broadcasts over its two sequences: pairwise
    when they are equally long, one qubit into several bits otherwise. *)
Definition measure (c : QuantumCircuit) (qs cs : list Z)
    : result QuantumCircuit :=
  qs' ← map_result (bit_index (num_qubits c)) qs;
  cs' ← map_result (bit_index (num_clbits c)) cs;
  if (length qs' =? length cs')%nat
  then for_in (combine qs' cs') c
         (fun c qc => append c Measure [fst qc] [snd qc])
  else if (length qs' =? 1)%nat && negb (length cs' =? 0)%nat
  then for_in cs' c (fun c cl => append c Measure qs' [cl])
  else Raise CircuitError.

(** [dest.compose(other, inplace=True)] with the default wiring: qubit [i]
    of [other] lands on qubit [i] of [dest]. *)
Definition compose (dest other : QuantumCircuit) : result QuantumCircuit :=
  if (num_qubits dest <? num_qubits other)
     || (num_clbits dest <? num_clbits other)
  then Raise CircuitError
  else Ok (Circuit (num_qubits dest) (num_clbits dest)
             (data dest ++ data other)).

(** [gate.inverse()].  A measurement has none; an operator that is only
    known by name is inverted through its definition and renamed. *)
Definition inverse_gate (g : gate) : result gate :=
  match g with
  | XGate => Ok XGate
  | HGate => Ok HGate
  | CPhaseGate theta => Ok (CPhaseGate (- theta))
  | PhaseGate theta => Ok (PhaseGate (- theta))
  | SwapGate => Ok SwapGate
  | Measure => Raise CircuitError
  | IGate => Ok IGate
  | RZGate phi => Ok (RZGate (- phi))
  | SXGate => Ok SXdgGate
  | SXdgGate => Ok SXGate
  | CXGate => Ok CXGate
  | Opaque s n => Ok (Opaque (s ++ "_dg") n)
  end.

Definition inverse_instruction (i : instruction) : result instruction :=
  g ← inverse_gate (operation i);
  Ok (Instruction g (qubits i) (clbits i)).

(** [circuit.inverse()]: every operator inverted, in reversed order. *)
Definition inverse (c : QuantumCircuit) : result QuantumCircuit :=
  insts ← map_result inverse_instruction (rev (data c));
  Ok (Circuit (num_qubits c) (num_clbits c) insts).

End Qiskit.

(** ** [src/quantum_fourier_transform.py] *)

Module QuantumFourierTransform.
Import Qiskit.

Definition _create_cphase_gate (circuit : QuantumCircuit)
    (control target k : Z) : result QuantumCircuit :=
  angle ← two_pi_over_pow2 k;
  cp circuit angle control target.

Definition construct_qft (n_qubits : Z) : result QuantumCircuit :=
  circuit ← new_circuit n_qubits 0;
  circuit ← for_in (range n_qubits) circuit (fun circuit i =>
    circuit ← h circuit i;
    for_in (range2 (i + 1) n_qubits) circuit (fun circuit j =>
      let k := j - i + 1 in
      _create_cphase_gate circuit j i k));
  circuit ← for_in (range (n_qubits / 2)) circuit (fun circuit i =>
    swap circuit i (n_qubits - i - 1));
  Ok circuit.

Definition construct_inverse_qft (n_qubits : Z) : result QuantumCircuit :=
  qft ← construct_qft n_qubits;
  inverse qft.

End QuantumFourierTransform.


(** ** [src/drapper.py] *)

Module DraperAdder.
Import Qiskit.

Definition _binary_to_phase_angles (number n_qubits : Z)
    : result (list R) :=
  for_in (range n_qubits) [] (fun angles i =>
    angle ← for_in (range (i + 1)) 0%R (fun angle j =>
      if negb (Z.land number (Z.shiftl 1 j) =? 0)
      then term ← two_pi_over_pow2 (i - j + 1); Ok (angle + term)%R
      else Ok angle);
    Ok (angles ++ [angle])).

Definition construct_adder (a b n_qubits : Z) : result QuantumCircuit :=
  if ge_pow2 a n_qubits || ge_pow2 b n_qubits then Raise ValueError
  else
    (* Create quantum circuit *)
    circuit ← new_circuit n_qubits n_qubits;
    (* Initialize first register with a *)
    circuit ← for_in (range n_qubits) circuit (fun circuit i =>
      if negb (Z.land a (Z.shiftl 1 i) =? 0) then x circuit i
      else Ok circuit);
    (* Apply QFT *)
    qft_circuit ← QuantumFourierTransform.construct_qft n_qubits;
    circuit ← compose circuit qft_circuit;
    (* Add phase angles corresponding to b *)
    angles ← _binary_to_phase_angles b n_qubits;
    circuit ← for_in (range n_qubits) circuit (fun circuit i =>
      angle ← getitem angles i;
      p circuit angle i);
    (* Apply inverse QFT *)
    inverse_qft_circuit ←
      QuantumFourierTransform.construct_inverse_qft n_qubits;
    circuit ← compose circuit inverse_qft_circuit;
    (* Add measurement *)
    circuit ← measure circuit (range n_qubits) (range n_qubits);
    Ok circuit.

Definition quantum_sum (a b : Z) : result (QuantumCircuit * Z) :=
  let sum_value := a + b in
  let n_qubits :=
    Z.max (bit_length sum_value) (Z.max (bit_length a) (bit_length b)) in
  circuit ← construct_adder a b n_qubits;
  Ok (circuit, n_qubits).

End DraperAdder.

(** ** [src/gate_basis_transformer.py] *)

(** Python's [str.lower] on ASCII text. *)
Definition lower_ascii (c : ascii) : ascii :=
  let n := nat_of_ascii c in
  if ((65 <=? n) && (n <=? 90))%nat then ascii_of_nat (n + 32) else c.

Fixpoint lower (s : string) : string :=
  match s with
  | EmptyString => EmptyString
  | String c s' => String (lower_ascii c) (lower s')
  end.

Module GateBasisTransformer.
Import Qiskit.

(** [self.basis_gates] *)
Definition basis_gates : gset string :=
  {[ "cx"; "id"; "rz"; "sx"; "x" ]}.

Section Transformer.

(** The two collaborators from qiskit.  [angles g] stands for
    [self.euler_decomposer.angles(g.to_matrix())], the Euler triple
    [(theta, phi, lambda)]; [decompose c] for [c.decompose()], one level
    of definition expansion. *)
Variable angles : gate -> result (R * R * R).
Variable decompose : QuantumCircuit -> result QuantumCircuit.

Definition _decompose_single_qubit_gate (g : gate) (qubit : Z)
    : result (list (gate * list Z)) :=
  temp_circuit ← new_circuit 1 0;
  '(theta, phi, lambda_) ← angles g;
  temp_circuit ← rz temp_circuit phi 0;
  temp_circuit ← sx temp_circuit 0;
  temp_circuit ← rz temp_circuit theta 0;
  temp_circuit ← sx temp_circuit 0;
  temp_circuit ← rz temp_circuit lambda_ 0;
  Ok (map (fun i => (operation i, [qubit])) (data temp_circuit)).

(** [for decomp_gate, decomp_qubits in gates: new_circuit.append(...)] *)
Definition append_all (new_circuit : QuantumCircuit)
    (gates : list (gate * list Z)) : result QuantumCircuit :=
  for_in gates new_circuit (fun new_circuit gq =>
    append new_circuit (fst gq) (snd gq) []).

(** [temp_circuit.qubits.index(q)]: the position of a qubit of the
    temporary circuit in its own register. *)
Definition qubits_index (temp_circuit : QuantumCircuit) (q : Z)
    : result Z :=
  if (0 <=? q) && (q <? num_qubits temp_circuit) then Ok q
  else Raise ValueError.

(** The body of the loop over [dag.op_nodes()], which lists the
    instructions of the circuit in the order they were added. *)
Definition transform_node (new_circuit : QuantumCircuit)
    (node : instruction) : result QuantumCircuit :=
  let qubits := Qiskit.qubits node in
  let gate := operation node in
  (* Skip non-unitary operations such as measurements *)
  if String.eqb (name gate) "measure" then Ok new_circuit
  else if bool_decide (lower (name gate) ∈ basis_gates)
  then append new_circuit gate qubits []
  else if (length qubits =? 1)%nat then
    q0 ← getitem qubits 0;
    decomposed_gates ← _decompose_single_qubit_gate gate q0;
    append_all new_circuit decomposed_gates
  else if String.eqb (name gate) "cx"
  then append new_circuit gate qubits []
  else
    let n := Z.of_nat (length qubits) in
    temp_circuit ← Qiskit.new_circuit n 0;
    temp_circuit ← append temp_circuit gate (range n) [];
    decomposed ← decompose temp_circuit;
    for_in (data decomposed) new_circuit (fun new_circuit inst =>
      let inst_gate := operation inst in
      let inst_qubits := Qiskit.qubits inst in
      if (length inst_qubits =? 1)%nat then
        q0 ← getitem inst_qubits 0;
        k ← qubits_index temp_circuit q0;
        original_qubit ← getitem qubits k;
        decomp_gates ← _decompose_single_qubit_gate inst_gate original_qubit;
        append_all new_circuit decomp_gates
      else
        mapped_qubits ← map_result (fun q =>
          k ← qubits_index temp_circuit q;
          getitem qubits k) inst_qubits;
        append new_circuit inst_gate mapped_qubits []).

Definition transform_circuit (circuit : QuantumCircuit)
    : result QuantumCircuit :=
  new_circuit ← Qiskit.new_circuit (num_qubits circuit) (num_clbits circuit);
  for_in (data circuit) new_circuit transform_node.

End Transformer.

(** [get_gate_counts]: a dictionary with one key per basis gate. *)
Definition get_gate_counts (circuit : QuantumCircuit) : gmap string Z :=
  let counts : gmap string Z := gset_to_gmap 0 basis_gates in
  fold_left (fun (counts : gmap string Z) instruction =>
    let gate_name := lower (name (operation instruction)) in
    match counts !! gate_name with
    | Some v => <[gate_name := v + 1]> counts
    | None => counts
    end) (data circuit) counts.

(** [sum(counts.values())] *)
Definition total_count (counts : gmap string Z) : Z :=
  map_fold (fun _ v acc => v + acc) 0 counts.

End GateBasisTransformer.

(** ** The two qiskit collaborators of the transformer, on the gates of this
    development *)

Module Collaborators.
Import Qiskit.

(** The principal argument of [e^(i t)], in the interval [(-pi, pi]]. *)
Definition principal (t : R) : R :=
  (t - 2 * PI * IZR (1 - up ((PI - t) / (2 * PI))))%R.

(** [OneQubitEulerDecomposer(basis='ZSX').angles(g.to_matrix())].  For a
    2x2 unitary [m] the library returns
    [theta = 2 atan2(|m10|, |m00|)], [phi = arg m11 + arg m10 - arg (det m)]
    and [lambda = arg m11 - arg m10]; the table gives these values, in
    closed form, for the single-qubit operators of this development (the
    Pauli Y and Z are known here by their names).  [Raise] stands for
    every operator whose matrix the development does not know, and for
    those that are not on one qubit. *)
Definition zyz_angles (g : gate) : result (R * R * R) :=
  match g with
  | IGate => Ok (0, 0, 0)%R
  | XGate => Ok (PI, - PI, 0)%R
  | HGate => Ok (PI / 2, 0, PI)%R
  | SXGate => Ok (PI / 2, - PI / 2, PI / 2)%R
  | SXdgGate => Ok (PI / 2, PI / 2, - PI / 2)%R
  | RZGate t => Ok (0, principal (t / 2), principal (t / 2))%R
  | PhaseGate t => Ok (0, 0, principal t)%R
  | Opaque s n =>
      if String.eqb s "y" && (n =? 1)%nat
      then Ok (PI, - PI / 2, - PI / 2)%R
      else if String.eqb s "z" && (n =? 1)%nat
      then Ok (0, 0, PI)%R
      else Raise QiskitError
  | _ => Raise QiskitError
  end.

(** The definitions in qiskit's gate library that [decompose()] expands,
    for the three operators on more than one qubit that this development
    runs the transformer on: a controlled phase, a swap, and the controlled
    swap (known here by its name), over local qubits [0, 1, 2].  The
    library holds definitions of other operators as well; they are not in
    this table.  The general theorems about the transformer take the
    decomposer as a parameter, or apply this one to circuits of standard
    gates, of which it expands the controlled phase and the swap only. *)
Definition definition (g : gate) : option (list (gate * list nat)) :=
  match g with
  | CPhaseGate t =>
      Some [ (PhaseGate (t / 2), [0%nat]); (CXGate, [0%nat; 1%nat]);
             (PhaseGate (- t / 2), [1%nat]); (CXGate, [0%nat; 1%nat]);
             (PhaseGate (t / 2), [1%nat]) ]
  | SwapGate =>
      Some [ (CXGate, [0%nat; 1%nat]); (CXGate, [1%nat; 0%nat]);
             (CXGate, [0%nat; 1%nat]) ]
  | Opaque s n =>
      if String.eqb s "cswap" && (n =? 3)%nat
      then Some [ (CXGate, [2%nat; 1%nat]);
                  (Opaque "ccx" 3, [0%nat; 1%nat; 2%nat]);
                  (CXGate, [2%nat; 1%nat]) ]
      else None
  | _ => None
  end.

(** [circuit.decompose()]: every instruction that has a definition is
    replaced by it, wired to the instruction's own qubits; one level only. *)
Definition decompose (c : QuantumCircuit) : result QuantumCircuit :=
  Ok (Circuit (num_qubits c) (num_clbits c)
        (flat_map (fun inst =>
           match definition (operation inst) with
           | Some body =>
               map (fun gq =>
                 Instruction (fst gq)
                   (map (fun k => nth k (qubits inst) 0) (snd gq)) [])
                 body
           | None => [inst]
           end) (data c))).

End Collaborators.

(** ** What the gates do: amplitudes over computational basis states *)

Module Semantics.
Import Qiskit.

Definition C : Type := (R * R)%type.
Definition C0 : C := (0, 0)%R.
Definition C1 : C := (1, 0)%R.
Definition Cadd (a b : C) : C := (fst a + fst b, snd a + snd b)%R.
Definition Cmul (a b : C) : C :=
  (fst a * fst b - snd a * snd b, fst a * snd b + snd a * fst b)%R.
Definition Cexp (t : R) : C := (cos t, sin t).
Definition Cnorm2 (a : C) : R := (fst a * fst a + snd a * snd a)%R.

(** A basis state gives every qubit a bit; a state gives every basis state
    an amplitude. *)
Definition basis : Type := Z -> bool.
Definition state : Type := basis -> C.

Definition upd (b : basis) (q : Z) (v : bool) : basis :=
  fun k => if k =? q then v else b k.

(** A 2x2 matrix, by row and column. *)
Definition matrix2 : Type := bool -> bool -> C.

Definition apply1 (m : matrix2) (q : Z) (psi : state) : state :=
  fun b => Cadd (Cmul (m (b q) false) (psi (upd b q false)))
                (Cmul (m (b q) true) (psi (upd b q true))).

Definition diag (d0 d1 : C) : matrix2 :=
  fun r c => if Bool.eqb r c then (if r then d1 else d0) else C0.

Definition gate_matrix (g : gate) : option matrix2 :=
  match g with
  | IGate => Some (diag C1 C1)
  | XGate => Some (fun r c => if xorb r c then C1 else C0)
  | HGate => Some (fun r c =>
      if r && c then (- / sqrt 2, 0)%R else (/ sqrt 2, 0)%R)
  | PhaseGate t => Some (diag C1 (Cexp t))
  | RZGate t => Some (diag (Cexp (- t / 2)) (Cexp (t / 2)))
  | SXGate => Some (fun r c =>
      if xorb r c then (/ 2, - / 2)%R else (/ 2, / 2)%R)
  | SXdgGate => Some (fun r c =>
      if xorb r c then (/ 2, / 2)%R else (/ 2, - / 2)%R)
  | _ => None
  end.

(** The action of one instruction; a measurement or an operator known only
    by name has none. *)
Definition apply_instruction (i : instruction) : option (state -> state) :=
  match operation i, qubits i with
  | CPhaseGate t, [c; q] =>
      Some (fun psi b => if b c && b q then Cmul (Cexp t) (psi b) else psi b)
  | SwapGate, [q1; q2] =>
      Some (fun psi b => psi (upd (upd b q1 (b q2)) q2 (b q1)))
  | CXGate, [c; q] =>
      Some (fun psi b => psi (upd b q (xorb (b q) (b c))))
  | g, [q] =>
      match gate_matrix g with
      | Some m => Some (apply1 m q)
      | None => None
      end
  | _, _ => None
  end.

Fixpoint run (l : list instruction) (psi : state) : option state :=
  match l with
  | [] => Some psi
  | i :: l' =>
      match apply_instruction i with
      | Some f => run l' (f psi)
      | None => None
      end
  end.

(** The basis state [|b>] of an [n]-qubit register. *)
Definition ket (n : Z) (b : basis) : state :=
  fun b' => if forallb (fun q => Bool.eqb (b' q) (b q)) (range n)
            then C1 else C0.

(** Two gate sequences agree up to a global phase. *)
Definition same_up_to_phase (l1 l2 : list instruction) : Prop :=
  exists c : C, Cnorm2 c = 1%R /\
    forall psi : state,
      option_map (fun s : state => fun b => Cmul c (s b)) (run l1 psi)
      = run l2 psi.

End Semantics.

(** ** [src/quantum_noise.py] *)

Module QuantumNoise.
Import Qiskit.

(** [circuit.y(q)], [circuit.z(q)] and [circuit.barrier()]: operators this
    development knows by name.  A barrier spans every qubit. *)
Definition y (c : QuantumCircuit) (q : Z) := append c (Opaque "y" 1) [q] [].
Definition z (c : QuantumCircuit) (q : Z) := append c (Opaque "z" 1) [q] [].
Definition barrier (c : QuantumCircuit) : result QuantumCircuit :=
  append c (Opaque "barrier" (Z.to_nat (num_qubits c)))
    (range (num_qubits c)) [].

(** [circuit.measure_all()]: a fresh classical register as wide as the
    qubit register is added, then a barrier, then every qubit is measured
    into the new register. *)
Definition measure_all (c : QuantumCircuit) : result QuantumCircuit :=
  let n := num_qubits c in
  let m := num_clbits c in
  c ← barrier (Circuit n (m + n) (data c));
  measure c (range n) (range2 m (m + n)).

Section Noise.

(** The state of Python's global random generator, and the two draws the
    module makes from it: [random.random()], a float in [[0, 1)], and the
    index [random.choice] picks in a sequence of the given length.  Floats
    are the rationals they are. *)
Variable G : Type.
Variable random_random : G -> Q * G.
Variable random_choice : G -> nat -> nat * G.

Definition pauli_ops : list string := ["x"; "y"; "z"].

(** [0 <= p <= 1] *)
Definition is_probability (p : Q) : bool := Qle_bool 0 p && Qle_bool p 1.

(** The body of the loop over the qubits of one instruction. *)
Definition noise_on_qubit (error_prob : Q) (state : QuantumCircuit * G)
    (qubit : Z) : result (QuantumCircuit * G) :=
  let (noisy_circuit, g) := state in
  let (r, g) := random_random g in
  state ←
    (if negb (Qle_bool error_prob r) then
       (* Randomly select a Pauli operator *)
       let (k, g) := random_choice g (length pauli_ops) in
       let pauli_error := nth k pauli_ops EmptyString in
       noisy_circuit ←
         (if String.eqb pauli_error "x" then x noisy_circuit qubit
          else if String.eqb pauli_error "y" then y noisy_circuit qubit
          else z noisy_circuit qubit);
       Ok (noisy_circuit, g)
     else Ok (noisy_circuit, g));
  noisy_circuit ← measure_all (fst state);
  Ok (noisy_circuit, snd state).

(** The body of the loop over the instructions.  A qubit is its index in
    the register, so the qubits of the input circuit name the same qubits
    of the new one. *)
Definition noise_on_instruction (p1 p2 : Q) (state : QuantumCircuit * G)
    (instruction : instruction) : result (QuantumCircuit * G) :=
  let (noisy_circuit, g) := state in
  let gate := operation instruction in
  let qubits := Qiskit.qubits instruction in
  (* Add the original gate *)
  noisy_circuit ← append noisy_circuit gate qubits [];
  let num_qubits := length qubits in
  let error_prob := if (num_qubits =? 1)%nat then p1 else p2 in
  for_in qubits (noisy_circuit, g) (noise_on_qubit error_prob).

(** [add_quantum_noise]; the generator state it leaves behind is returned
    with the circuit. *)
Definition add_quantum_noise (circuit : QuantumCircuit) (p1 p2 : Q) (g : G)
    : result (QuantumCircuit * G) :=
  if negb (is_probability p1) || negb (is_probability p2)
  then Raise ValueError
  else
    noisy_circuit ← new_circuit (num_qubits circuit) (num_clbits circuit);
    for_in (data circuit) (noisy_circuit, g) (noise_on_instruction p1 p2).

(** The three counters of [analyze_noise_effect]. *)
Record totals : Type := Totals {
  total_errors : gmap string Z;
  total_single_qubit_errors : Z;
  total_two_qubit_errors : Z
}.

(** The body of the loop over [noisy_circuit.data].  Under the test, the
    key [gate] is one of the three the dictionary was created with. *)
Definition count_error (t : totals) (instruction : instruction) : totals :=
  let gate := name (operation instruction) in
  if existsb (String.eqb gate) ["x"; "y"; "z"] then
    let single := (length (qubits instruction) =? 1)%nat in
    Totals
      (<[gate := default 0 (total_errors t !! gate) + 1]> (total_errors t))
      (if single then total_single_qubit_errors t + 1
       else total_single_qubit_errors t)
      (if single then total_two_qubit_errors t
       else total_two_qubit_errors t + 1)
  else t.

(** The body of the loop over the samples. *)
Definition sample (circuit : QuantumCircuit) (p1 p2 : Q)
    (state : totals * G) (_ : Z) : result (totals * G) :=
  let (t, g) := state in
  r ← add_quantum_noise circuit p1 p2 g;
  Ok (fold_left count_error (data (fst r)) t, snd r).

(** The dictionary [analyze_noise_effect] returns. *)
Record stats : Type := Stats {
  avg_x_errors : Q;
  avg_y_errors : Q;
  avg_z_errors : Q;
  avg_single_qubit_errors : Q;
  avg_two_qubit_errors : Q
}.

(** How a call of [analyze_noise_effect] ends: with its dictionary, with an
    exception of [add_quantum_noise], or with Python's
    [ZeroDivisionError]. *)
Inductive outcome : Type :=
| Returns (s : stats) (g : G)
| Raises (e : error)
| ZeroDivisionError.

(** [analyze_noise_effect]; [total / num_samples] is the rational it
    rounds. *)
Definition analyze_noise_effect (circuit : QuantumCircuit) (p1 p2 : Q)
    (num_samples : Z) (g : G) : outcome :=
  let total_errors0 : gmap string Z := {[ "x" := 0; "y" := 0; "z" := 0 ]} in
  match for_in (range num_samples) (Totals total_errors0 0 0, g)
          (sample circuit p1 p2) with
  | Raise e => Raises e
  | Ok (t, g) =>
      (* Calculate averages *)
      if num_samples =? 0 then ZeroDivisionError
      else
        let avg (total : Z) := (inject_Z total / inject_Z num_samples)%Q in
        Returns
          (Stats (avg (default 0 (total_errors t !! "x")))
                 (avg (default 0 (total_errors t !! "y")))
                 (avg (default 0 (total_errors t !! "z")))
                 (avg (total_single_qubit_errors t))
                 (avg (total_two_qubit_errors t)))
          g
  end.

End Noise.

Arguments Returns {G} s g.
Arguments Raises {G} e.
Arguments ZeroDivisionError {G}.

End QuantumNoise.

(** ** [src/quantum_noise_analyse.py], the parts that run without a
    backend *)

Module NoiseAnalyzer.

Fixpoint binary_digits (p : positive) : string :=
  match p with
  | xH => "1"
  | xO p' => String.append (binary_digits p') "0"
  | xI p' => String.append (binary_digits p') "1"
  end.

Fixpoint zeros (n : nat) : string :=
  match n with
  | O => EmptyString
  | S n' => String "0" (zeros n')
  end.

(** Python's [format(x, f'0{width}b')]: the binary digits of [x], behind a
    minus sign if it is negative, filled with zeros after the sign up to
    [width] characters.  A negative width makes the format specifier
    invalid. *)
Definition format_binary (x width : Z) : result string :=
  if width <? 0 then Raise ValueError
  else
    let sign := if x <? 0 then "-" else EmptyString in
    let digits :=
      match x with
      | Z0 => "0"
      | Zpos p | Zneg p => binary_digits p
      end in
    let fill :=
      Z.to_nat (width - Z.of_nat (String.length sign)
                - Z.of_nat (String.length digits)) in
    Ok (String.append sign (String.append (zeros fill) digits)).

(** [_get_success_rate]; the float quotient is the rational it rounds. *)
Definition _get_success_rate (counts : gmap string Z)
    (expected_sum n_qubits : Z) : result Q :=
  (* Convert expected sum to binary string *)
  expected_bitstring ← format_binary expected_sum n_qubits;
  (* Count successful measurements *)
  let successful_counts := default 0 (counts !! expected_bitstring) in
  let total_counts := GateBasisTransformer.total_count counts in
  Ok (if 0 <? total_counts
      then Qmake successful_counts (Z.to_pos total_counts)
      else 0%Q).

(** One entry of [results['noise_analysis']]. *)
Record analysis : Type := Analysis {
  noise_p1 : Q;
  noise_p2 : Q;
  success_rate : Q
}.

(** The float [0.95]. *)
Definition success_threshold : Q :=
  Qmake 4278419646001971 4503599627370496.

(** Python's [max(a, b)]: [b] only if it is greater. *)
Definition max_float (a b : Q) : Q := if Qle_bool b a then a else b.

Definition _suggest_max_noise (results : list analysis) : Q * Q :=
  fold_left (fun (acc : Q * Q) analysis =>
    let (max_p1, max_p2) := acc in
    if Qle_bool success_threshold (success_rate analysis)
    then (max_float max_p1 (noise_p1 analysis),
          max_float max_p2 (noise_p2 analysis))
    else (max_p1, max_p2)) results (0%Q, 0%Q).

End NoiseAnalyzer.

(** ** The circuits as the specification describes them *)

Module Spec.
Import Qiskit.
Local Open Scope nat_scope.

Definition on (g : gate) (qs : list nat) : instruction :=
  Instruction g (map Z.of_nat qs) [].

(** Forward transform: for each qubit [i], a Hadamard, then a controlled
    phase of angle [2 pi / 2^(j-i+1)] from every later qubit [j]; finally the
    swaps that reverse the register. *)
Definition qft_gates (n : nat) : list instruction :=
  flat_map (fun i =>
    on HGate [i]
    :: map (fun j => on (CPhaseGate (2 * PI / 2 ^ (j - i + 1))%R) [j; i])
         (seq (i + 1) (n - (i + 1))))
    (seq 0 n)
  ++ map (fun i => on SwapGate [i; n - 1 - i]) (seq 0 (n / 2)).

(** The same gate with its angle negated. *)
Definition negate_angle (i : instruction) : instruction :=
  match operation i with
  | CPhaseGate t => Instruction (CPhaseGate (- t)) (qubits i) (clbits i)
  | PhaseGate t => Instruction (PhaseGate (- t)) (qubits i) (clbits i)
  | RZGate t => Instruction (RZGate (- t)) (qubits i) (clbits i)
  | _ => i
  end.

Definition inverse_qft_gates (n : nat) : list instruction :=
  rev (map negate_angle (qft_gates n)).

(** [angle[i]]: the contributions [2 pi / 2^(i-j+1)] of the bits [j <= i]
    that are set in the operand. *)
Definition phase_angle (b : Z) (i : nat) : R :=
  fold_right Rplus 0%R
    (map (fun j => (2 * PI / 2 ^ (i - j + 1))%R)
       (List.filter (fun j => Z.testbit b (Z.of_nat j)) (seq 0 (i + 1)))).

Definition flips (a : Z) (n : nat) : list instruction :=
  map (fun i => on XGate [i])
    (List.filter (fun i => Z.testbit a (Z.of_nat i)) (seq 0 n)).

Definition rotations (b : Z) (n : nat) : list instruction :=
  map (fun i => on (PhaseGate (phase_angle b i)) [i]) (seq 0 n).

Definition measurements (n : nat) : list instruction :=
  map (fun i => Instruction Measure [Z.of_nat i] [Z.of_nat i]) (seq 0 n).

Definition adder_gates (a b : Z) (n : nat) : list instruction :=
  flips a n ++ qft_gates n ++ rotations b n ++ inverse_qft_gates n
  ++ measurements n.

(** [x] is representable in [n] bits. *)
Definition fits (x n : Z) : Prop := (x < 2 ^ n)%Z.

End Spec.

(** ** Vocabulary of the proofs *)

Module Trace.
Import Qiskit QuantumFourierTransform DraperAdder GateBasisTransformer.
Import Semantics.

(** What one round of the outer loop adds, on the code's own indices. *)
Definition qft_round (n i : Z) : list instruction :=
  Instruction HGate [i] []
  :: map (fun j =>
       Instruction (CPhaseGate (2 * PI / powerRZ 2 (j - i + 1))) [j; i] [])
       (range2 (i + 1) n).

Definition qft_swap (n i : Z) : list instruction :=
  [Instruction SwapGate [i; n - i - 1] []].

(** [m'] is a left inverse of [m]. *)
Definition left_inverse (m' m : matrix2) : Prop :=
  forall r c : bool,
    Cadd (Cmul (m' r false) (m false c)) (Cmul (m' r true) (m true c))
    = if Bool.eqb r c then C1 else C0.

(** The three shapes of instruction a Fourier circuit is made of. *)
Inductive qft_gate : Qiskit.instruction -> Prop :=
| qft_gate_h (q : Z) :
    qft_gate (Qiskit.Instruction Qiskit.HGate [q] [])
| qft_gate_cp (t : R) (c q : Z) :
    qft_gate (Qiskit.Instruction (Qiskit.CPhaseGate t) [c; q] [])
| qft_gate_swap (q1 q2 : Z) :
    qft_gate (Qiskit.Instruction Qiskit.SwapGate [q1; q2] []).

(** The inner loop of [_binary_to_phase_angles], for qubit [i]. *)
Definition angle_loop (number i : Z) : R :=
  fold_left (fun angle j =>
    if negb (Z.land number (Z.shiftl 1 j) =? 0)
    then (angle + 2 * PI / powerRZ 2 (i - j + 1))%R
    else angle) (range (i + 1)) 0%R.

(** What each loop of [construct_adder] adds, on the code's own indices. *)
Definition flip_step (a i : Z) : list instruction :=
  if negb (Z.land a (Z.shiftl 1 i) =? 0)
  then [Instruction XGate [i] []] else [].

Definition rotation_step (b i : Z) : list instruction :=
  [Instruction (PhaseGate (angle_loop b i)) [i] []].

Definition measure_step (qc : Z * Z) : list instruction :=
  [Instruction Measure [fst qc] [snd qc]].

(** An instruction whose (lower-cased) operator name is a basis gate. *)
Definition basis_named (i : Qiskit.instruction) : Prop :=
  lower (Qiskit.name (Qiskit.operation i)) ∈ GateBasisTransformer.basis_gates.

(** The five gates the single-qubit decomposition emits for a triple. *)
Definition zsx_sequence (theta phi lambda_ : R) (qubit : Z)
    : list (Qiskit.gate * list Z) :=
  [ (Qiskit.RZGate phi, [qubit]); (Qiskit.SXGate, [qubit]);
    (Qiskit.RZGate theta, [qubit]); (Qiskit.SXGate, [qubit]);
    (Qiskit.RZGate lambda_, [qubit]) ].

(** The temporary circuit the generic branch builds around one operator. *)
Definition temp_circuit_of (node : instruction) : result QuantumCircuit :=
  let n := Z.of_nat (length (qubits node)) in
  append (Circuit n 0 []) (operation node) (range n) [].

(** When the generic branch expands [node], the decomposer hands back
    nothing wider than one qubit that is outside the basis. *)
Definition expands_to_basis
    (decompose : QuantumCircuit -> result QuantumCircuit)
    (node : instruction) : Prop :=
  forall t t' inst,
    temp_circuit_of node = Ok t ->
    decompose t = Ok t' -> In inst (data t') ->
    (length (qubits inst) =? 1)%nat = false ->
    basis_named inst.

Definition decomposes_to_basis
    (decompose : QuantumCircuit -> result QuantumCircuit)
    (c : QuantumCircuit) : Prop :=
  forall node, In node (data c) -> expands_to_basis decompose node.

(** A standard gate: anything but an operator known only by its name. *)
Definition standard_gate (g : gate) : bool :=
  match g with
  | Opaque _ _ => false
  | _ => true
  end.

#[global] Instance basis_named_dec (i : Qiskit.instruction) :
  Decision (basis_named i).
Proof. unfold basis_named. apply _. Defined.

(** How many instructions of [l] carry the (lower-cased) name [k]. *)
Definition occurrences (k : string) (l : list Qiskit.instruction) : Z :=
  Z.of_nat (length (List.filter
    (fun i => String.eqb (lower (Qiskit.name (Qiskit.operation i))) k) l)).

(** How many instructions of [l] carry a basis name. *)
Definition basis_instructions (l : list Qiskit.instruction) : Z :=
  Z.of_nat (length (List.filter (fun i => bool_decide (basis_named i)) l)).

(** The body of the counting loop. *)
Definition count_step (counts : gmap string Z) (i : instruction)
    : gmap string Z :=
  let gate_name := lower (name (operation i)) in
  match counts !! gate_name with
  | Some v => <[gate_name := v + 1]> counts
  | None => counts
  end.

(** Product of two 2x2 matrices. *)
Definition mat_mul (m' m : Semantics.matrix2) : Semantics.matrix2 :=
  fun r c => Semantics.Cadd (Semantics.Cmul (m' r false) (m false c))
                            (Semantics.Cmul (m' r true) (m true c)).

(** The instructions [transform_circuit] appends for a decomposition. *)
Definition as_instructions (l : list (Qiskit.gate * list Z))
    : list Qiskit.instruction :=
  map (fun gq => Qiskit.Instruction (fst gq) (snd gq) []) l.

(** The width [quantum_sum] picks. *)
Definition chosen_width (a b : Z) : Z :=
  Z.max (bit_length (a + b)) (Z.max (bit_length a) (bit_length b)).

(** The circuits used as concrete inputs below. *)
Definition cswap_circuit : Qiskit.QuantumCircuit :=
  Qiskit.Circuit 3 0 [Qiskit.Instruction (Qiskit.Opaque "cswap" 3) [0; 1; 2] []].

Definition cswap_transformed : Qiskit.QuantumCircuit :=
  Qiskit.Circuit 3 0
    [ Qiskit.Instruction Qiskit.CXGate [2; 1] [];
      Qiskit.Instruction (Qiskit.Opaque "ccx" 3) [0; 1; 2] [];
      Qiskit.Instruction Qiskit.CXGate [2; 1] [] ].

End Trace.
Export Trace.

(** ** Shape of a circuit *)

Module Shape.
Import Qiskit GateBasisTransformer.

(** An instruction fits registers of [n] qubits and [m] classical bits: its
    indices are in range, it has as many of them as its operator takes, and
    no qubit twice. *)
Definition instruction_ok (n m : Z) (i : instruction) : Prop :=
  List.Forall (fun q => 0 <= q < n) (qubits i)
  /\ List.Forall (fun c => 0 <= c < m) (clbits i)
  /\ length (qubits i) = gate_num_qubits (operation i)
  /\ length (clbits i) = gate_num_clbits (operation i)
  /\ has_duplicates (qubits i) = false.

Definition well_formed (c : QuantumCircuit) : Prop :=
  List.Forall (instruction_ok (num_qubits c) (num_clbits c)) (data c).

(** A well-formed circuit on registers of sizes [n] and [m]. *)
Definition shaped (n m : Z) (c : QuantumCircuit) : Prop :=
  num_qubits c = n /\ num_clbits c = m /\ well_formed c.

(** The result [r], with the instructions [d] put in front. *)
Definition prepend (d : list instruction) (r : result QuantumCircuit)
    : result QuantumCircuit :=
  c ← r; Ok (Circuit (num_qubits c) (num_clbits c) (d ++ data c)).

(** The test [transform_circuit] skips an instruction on. *)
Definition is_measure (i : instruction) : bool :=
  String.eqb (name (operation i)) "measure".

(** Number of gates of a Fourier circuit on [n] qubits. *)
Definition qft_size (n : Z) : Z := n * (n + 1) / 2 + n / 2.

(** Number of the low [n] bits set in [a]. *)
Definition popcount (a : Z) (n : nat) : Z :=
  Z.of_nat (length (List.filter (fun i => Z.testbit a (Z.of_nat i)) (seq 0 n))).

(** The number a string of binary digits spells (Python's [int(s, 2)] on
    digits), continuing from [acc]. *)
Fixpoint binary_value (s : string) (acc : Z) : Z :=
  match s with
  | EmptyString => acc
  | String c s' =>
      binary_value s' (2 * acc + (if Ascii.eqb c "1" then 1 else 0))
  end.



(** A swap followed by a measurement, and its three controlled NOTs. *)
Definition swap_circuit : QuantumCircuit :=
  Circuit 2 1 [Instruction SwapGate [0; 1] [];
               Instruction Measure [0] [0]].

Definition swap_transformed : QuantumCircuit :=
  Circuit 2 1 [Instruction CXGate [0; 1] [];
               Instruction CXGate [1; 0] [];
               Instruction CXGate [0; 1] []].

(** A Bell pair, and two generators over a state that holds nothing: one
    draws 0 and the first choice every time, the other draws one half. *)
Definition bell_circuit : QuantumCircuit :=
  Circuit 2 0 [Instruction HGate [0] []; Instruction CXGate [0; 1] []].


Definition draw_zero (g : unit) : Q * unit := (0%Q, g).
Definition draw_half (g : unit) : Q * unit := ((1 # 2)%Q, g).
Definition choose_first (g : unit) (n : nat) : nat * unit := (0%nat, g).

(** Number of qubit arguments over all instructions of a list. *)
Definition qubit_slots (l : list instruction) : Z :=
  fold_right (fun i acc => Z.of_nat (length (qubits i)) + acc) 0 l.

(** [c'] holds the instructions of [c] and maybe more behind them. *)
Definition extends (c c' : QuantumCircuit) : Prop :=
  exists ext, data c' = data c ++ ext.

(** The analysis reached the success threshold. *)
Definition reliable (a : NoiseAnalyzer.analysis) : Prop :=
  (NoiseAnalyzer.success_threshold <= NoiseAnalyzer.success_rate a)%Q.

(** [m] is the largest of the values [f a] over the reliable analyses of
    [results], or 0 if they are all below 0 or there is none. *)
Definition ceiling_of (f : NoiseAnalyzer.analysis -> Q)
    (results : list NoiseAnalyzer.analysis) (m : Q) : Prop :=
  (0 <= m)%Q
  /\ (forall a, In a results -> reliable a -> (f a <= m)%Q)
  /\ (m = 0%Q \/ exists a, In a results /\ reliable a /\ m = f a).


End Shape.
Export Shape.

(** * Proofs *)

(** ** Loops and ranges *)

Lemma bind_Ok {A B : Type} (m : result A) (f : A -> result B) (b : B) :
(m ≫= f) = Ok b -> exists a, m = Ok a /\ f a = Ok b.
Proof. destruct m as [a|e]; simpl; [eauto | discriminate]. Qed.

(** A loop whose body holds an invariant keeps it, if it returns. *)
Lemma for_in_invariant {S A : Type} (P : S -> Prop) (l : list A) body :
(forall s x s', In x l -> P s -> body s x = Ok s' -> P s') ->
forall s s', P s -> for_in l s body = Ok s' -> P s'.
Proof.
induction l as [|x l IH]; intros Hb s s' Hs Hrun; simpl in Hrun.
- congruence.
- apply bind_Ok in Hrun as (s1 & H1 & H2).
  apply (IH (fun s0 y s0' Hy => Hb s0 y s0' (or_intror Hy)) s1 s'); auto.
  eapply Hb; eauto. now left.
Qed.

Lemma in_range2 (lo hi x : Z) : In x (range2 lo hi) <-> lo <= x < hi.
Proof.
unfold range2. rewrite in_map_iff. split.
- intros (k & <- & Hk). apply in_seq in Hk. lia.
- intros H. exists (Z.to_nat (x - lo)). split; [lia|].
  apply in_seq. lia.
Qed.

Lemma in_range (n x : Z) : In x (range n) <-> 0 <= x < n.
Proof. apply in_range2. Qed.

Lemma range_of_nat (n : nat) : range (Z.of_nat n) = map Z.of_nat (seq 0 n).
Proof.
unfold range, range2. rewrite Z.sub_0_r, Nat2Z.id.
apply map_ext. intros; lia.
Qed.

Lemma range2_of_nat (lo hi : nat) :
range2 (Z.of_nat lo) (Z.of_nat hi) = map Z.of_nat (seq lo (hi - lo)).
Proof.
unfold range2.
replace (Z.to_nat (Z.of_nat hi - Z.of_nat lo)) with (hi - lo)%nat by lia.
rewrite <- (Nat.add_0_r lo) at 2.
generalize (hi - lo)%nat as len, 0%nat as k.
induction len as [|len IH]; intros k; simpl; [reflexivity|].
f_equal; [lia|]. rewrite IH. do 2 f_equal. lia.
Qed.

Lemma range2_app (lo mid hi : Z) :
  lo <= mid <= hi -> range2 lo hi = range2 lo mid ++ range2 mid hi.
Proof.
  intros H. unfold range2.
  replace (Z.to_nat (hi - lo))
    with (Z.to_nat (mid - lo) + Z.to_nat (hi - mid))%nat by lia.
  rewrite seq_app, map_app. f_equal. rewrite Nat.add_0_l.
  rewrite <- (Nat.add_0_r (Z.to_nat (mid - lo))) at 1.
  generalize (Z.to_nat (hi - mid)) as len, 0%nat as k.
  induction len as [|len IH]; intros k; simpl; [reflexivity|].
  f_equal; [lia|]. rewrite <- IH. do 2 f_equal. lia.
Qed.

Lemma range2_cons (lo hi : Z) :
  lo < hi -> range2 lo hi = lo :: range2 (lo + 1) hi.
Proof.
  intros H. rewrite (range2_app lo (lo + 1) hi) by lia.
  unfold range2 at 1. replace (lo + 1 - lo) with 1 by lia.
  simpl. f_equal. lia.
Qed.

Lemma for_in_app {S A : Type} (l1 l2 : list A) (s : S)
    (body : S -> A -> result S) :
  for_in (l1 ++ l2) s body = (s' ← for_in l1 s body; for_in l2 s' body).
Proof.
  revert s. induction l1 as [|x l1 IH]; intros s; simpl; [reflexivity|].
  destruct (body s x) as [s1|e]; simpl; [apply IH | reflexivity].
Qed.

(** A loop whose body never raises is a fold. *)
Lemma for_in_fold {S A : Type} (l : list A) (f : S -> A -> S)
    (body : S -> A -> result S) :
  (forall s x, In x l -> body s x = Ok (f s x)) ->
  forall s, for_in l s body = Ok (fold_left f l s).
Proof.
  induction l as [|x l IH]; intros Hb s; simpl; [reflexivity|].
  rewrite Hb by now left. simpl. apply IH.
  intros; apply Hb; now right.
Qed.

(** A loop that returns has folded whatever its body computes. *)
Lemma for_in_fold_inv {S A : Type} (l : list A) (f : S -> A -> S)
    (body : S -> A -> result S) :
  (forall s x s', In x l -> body s x = Ok s' -> s' = f s x) ->
  forall s s', for_in l s body = Ok s' -> s' = fold_left f l s.
Proof.
  induction l as [|x l IH]; intros Hb s s' H; simpl in H.
  - now injection H as <-.
  - apply bind_Ok in H as (s1 & H1 & H).
    apply Hb in H1; [|now left]. subst s1. simpl.
    apply IH; [|exact H]. intros; eapply Hb; eauto. now right.
Qed.

Lemma two_pi_over_pow2_value (k : Z) (t : R) :
  two_pi_over_pow2 k = Ok t -> t = (2 * PI / powerRZ 2 k)%R.
Proof.
  unfold two_pi_over_pow2.
  destruct (1024 <=? k); [discriminate|].
  destruct (k <? -1074); [discriminate|]. now intros [= <-].
Qed.

Lemma two_pi_over_pow2_ok (k : Z) :
  -1074 <= k <= 1023 -> two_pi_over_pow2 k = Ok (2 * PI / powerRZ 2 k)%R.
Proof.
  intros H. unfold two_pi_over_pow2.
  replace (1024 <=? k) with false by (symmetry; apply Z.leb_gt; lia).
  replace (k <? -1074) with false by (symmetry; apply Z.ltb_ge; lia).
  reflexivity.
Qed.

Lemma two_pi_over_pow2_overflow (k : Z) :
  1024 <= k -> two_pi_over_pow2 k = Raise OverflowError.
Proof.
  intros H. unfold two_pi_over_pow2.
  replace (1024 <=? k) with true by (symmetry; apply Z.leb_le; lia).
  reflexivity.
Qed.

(** ** The circuit API on arguments that are in range *)

Section CircuitAPI.
Import Qiskit.

Lemma bit_index_in_range (size i : Z) :
  0 <= i < size -> bit_index size i = Ok i.
Proof.
  intros H. unfold bit_index.
  replace ((0 <=? i) && (i <? size)) with true; [reflexivity|].
  symmetry. apply andb_true_iff. split; [apply Z.leb_le | apply Z.ltb_lt]; lia.
Qed.

Lemma measures_false (g : gate) :
  gate_num_clbits g = 0%nat -> measures g = false.
Proof. destruct g; (reflexivity || discriminate). Qed.

Lemma append_1 (c : QuantumCircuit) (g : gate) (q : Z) :
  0 <= q < num_qubits c ->
  gate_num_qubits g = 1%nat -> gate_num_clbits g = 0%nat ->
  append c g [q] [] = Ok (push c (Instruction g [q] [])).
Proof.
  intros Hq Hg Hc. unfold append. simpl.
  rewrite bit_index_in_range by assumption. simpl.
  rewrite Hg, Hc, (measures_false g Hc). reflexivity.
Qed.

Lemma append_2 (c : QuantumCircuit) (g : gate) (q1 q2 : Z) :
  0 <= q1 < num_qubits c -> 0 <= q2 < num_qubits c -> q1 <> q2 ->
  gate_num_qubits g = 2%nat -> gate_num_clbits g = 0%nat ->
  append c g [q1; q2] [] = Ok (push c (Instruction g [q1; q2] [])).
Proof.
  intros H1 H2 Hne Hg Hc. unfold append. simpl.
  rewrite !bit_index_in_range by assumption. simpl.
  rewrite Hg, Hc, (measures_false g Hc). simpl.
  replace (q1 =? q2) with false; [reflexivity|].
  symmetry. apply Z.eqb_neq. assumption.
Qed.

Lemma append_measure (c : QuantumCircuit) (q cl : Z) :
  0 <= q < num_qubits c -> 0 <= cl < num_clbits c ->
  append c Measure [q] [cl] = Ok (push c (Instruction Measure [q] [cl])).
Proof.
  intros Hq Hc. unfold append. simpl.
  rewrite !bit_index_in_range by assumption. reflexivity.
Qed.

Lemma map_result_bit_index (size : Z) (l : list Z) :
  (forall i, In i l -> 0 <= i < size) ->
  map_result (bit_index size) l = Ok l.
Proof.
  induction l as [|i l IH]; intros H; simpl; [reflexivity|].
  rewrite bit_index_in_range by (apply H; now left). simpl.
  rewrite IH by (intros; apply H; now right). reflexivity.
Qed.

(** A loop whose body appends [emit x] to the instruction list appends
    the concatenation of all of them. *)
Lemma for_in_emit {A : Type} (l : list A) (emit : A -> list instruction)
    (body : QuantumCircuit -> A -> result QuantumCircuit) (n m : Z) :
  (forall c x, In x l -> num_qubits c = n -> num_clbits c = m ->
     body c x = Ok (Circuit n m (data c ++ emit x))) ->
  forall c, num_qubits c = n -> num_clbits c = m ->
    for_in l c body = Ok (Circuit n m (data c ++ flat_map emit l)).
Proof.
  induction l as [|x l IH]; intros Hbody c Hn Hm; simpl.
  - rewrite app_nil_r. destruct c; simpl in *; congruence.
  - rewrite (Hbody c x) by (auto; now left). simpl.
    rewrite IH; simpl; auto.
    + now rewrite <- app_assoc.
    + intros; apply Hbody; auto using in_cons.
Qed.

Lemma push_eq (c : QuantumCircuit) (i : instruction) :
  push c i = Circuit (num_qubits c) (num_clbits c) (data c ++ [i]).
Proof. reflexivity. Qed.

End CircuitAPI.

(** ** The Fourier transform *)

Section QFT.
Import Qiskit QuantumFourierTransform.



Lemma construct_qft_emits (n : Z) :
  0 <= n <= 1023 ->
  construct_qft n
  = Ok (Circuit n 0 (flat_map (qft_round n) (range n)
                     ++ flat_map (qft_swap n) (range (n / 2)))).
Proof.
  intros [Hn Hmax]. unfold construct_qft, new_circuit.
  replace ((n <? 0) || (0 <? 0)) with false
    by (symmetry; apply orb_false_iff; split; [apply Z.ltb_ge; lia | reflexivity]).
  simpl.
  rewrite (for_in_emit (range n) (qft_round n) _ n 0); try reflexivity.
  - simpl.
    rewrite (for_in_emit (range (n / 2)) (qft_swap n) _ n 0); try reflexivity.
    intros c i Hi Hq Hc. apply in_range in Hi.
    assert (n / 2 * 2 <= n) by (pose proof (Z.mul_div_le n 2); lia).
    unfold swap. rewrite append_2; try reflexivity; try lia.
    rewrite push_eq, Hq, Hc. reflexivity.
  - intros c i Hi Hq Hc. apply in_range in Hi.
    unfold h. rewrite append_1; try reflexivity; try lia. simpl.
    rewrite (for_in_emit (range2 (i + 1) n)
               (fun j => [Instruction
                  (CPhaseGate (2 * PI / powerRZ 2 (j - i + 1))) [j; i] []])
               _ n 0); try assumption.
    + simpl. rewrite <- app_assoc. simpl. unfold qft_round.
      do 4 f_equal.
    + intros c' j Hj Hq' Hc'. apply in_range2 in Hj.
      unfold _create_cphase_gate, cp.
      rewrite two_pi_over_pow2_ok by lia. simpl.
      rewrite append_2; try reflexivity; try lia.
      rewrite push_eq, Hq', Hc'. reflexivity.
Qed.

(** With 1024 qubits or more the first round reaches the pair [(0, 1023)],
    whose [k] is 1024. *)
Lemma construct_qft_overflow (n : Z) :
  1024 <= n -> construct_qft n = Raise OverflowError.
Proof.
  intros Hn. unfold construct_qft, new_circuit.
  replace ((n <? 0) || (0 <? 0)) with false
    by (symmetry; apply orb_false_iff; split; [apply Z.ltb_ge; lia | reflexivity]).
  cbn [mbind result_bind].
  change (range n) with (range2 0 n).
  rewrite (range2_cons 0 n) by lia. cbn [for_in].
  unfold h. rewrite append_1; try reflexivity; [|simpl; lia].
  cbn [mbind result_bind].
  rewrite (range2_app (0 + 1) 1023 n), for_in_app by lia.
  rewrite (for_in_emit (range2 (0 + 1) 1023)
             (fun j => [Instruction
                (CPhaseGate (2 * PI / powerRZ 2 (j - 0 + 1))) [j; 0] []])
             _ n 0); try reflexivity.
  - cbn [mbind result_bind].
    rewrite (range2_cons 1023 n) by lia. cbn [for_in].
    unfold _create_cphase_gate.
    rewrite two_pi_over_pow2_overflow by lia. reflexivity.
  - intros c' j Hj Hq' Hc'. apply in_range2 in Hj.
    unfold _create_cphase_gate, cp.
    rewrite two_pi_over_pow2_ok by lia. simpl.
    rewrite append_2; try reflexivity; try lia.
    rewrite push_eq, Hq', Hc'. reflexivity.
Qed.

End QFT.

Section QFTSpec.
Import Qiskit QuantumFourierTransform.

Lemma flat_map_map_in {A B D : Type} (f : A -> B) (g : B -> list D)
    (h : A -> list D) (l : list A) :
  (forall x, In x l -> g (f x) = h x) ->
  flat_map g (map f l) = flat_map h l.
Proof.
  induction l as [|x l IH]; intros H; simpl; [reflexivity|].
  rewrite H by now left. rewrite IH; auto using in_cons.
Qed.

Lemma powerRZ_2_offset (i j : nat) :
  (i < j)%nat ->
  powerRZ 2 (Z.of_nat j - Z.of_nat i + 1) = (2 ^ (j - i + 1))%R.
Proof.
  intros H. rewrite pow_powerRZ. f_equal. lia.
Qed.

Lemma qft_round_spec (n i : nat) :
  qft_round (Z.of_nat n) (Z.of_nat i)
  = Spec.on HGate [i]
    :: map (fun j => Spec.on (CPhaseGate (2 * PI / 2 ^ (j - i + 1))%R) [j; i])
         (seq (i + 1) (n - (i + 1))).
Proof.
  unfold qft_round. f_equal.
  replace (Z.of_nat i + 1) with (Z.of_nat (i + 1)) by lia.
  rewrite range2_of_nat, map_map. apply map_ext_in.
  intros j Hj. apply in_seq in Hj.
  rewrite powerRZ_2_offset by lia. reflexivity.
Qed.

Lemma qft_trace_spec (n : nat) :
  flat_map (qft_round (Z.of_nat n)) (range (Z.of_nat n))
  ++ flat_map (qft_swap (Z.of_nat n)) (range (Z.of_nat n / 2))
  = Spec.qft_gates n.
Proof.
  unfold Spec.qft_gates. f_equal.
  - rewrite range_of_nat. apply flat_map_map_in.
    intros i _. apply qft_round_spec.
  - replace (Z.of_nat n / 2) with (Z.of_nat (n / 2))
      by (rewrite Nat2Z.inj_div; reflexivity).
    rewrite range_of_nat.
    rewrite (flat_map_map_in _ _
               (fun i => [Spec.on SwapGate [i; (n - 1 - i)%nat]])).
    + clear. induction (seq 0 (n / 2)); simpl; congruence.
    + intros i Hi. apply in_seq in Hi.
      assert (2 * (n / 2) <= n)%nat
        by (apply Nat.Div0.mul_div_le).
      unfold qft_swap, Spec.on. simpl. do 4 f_equal. lia.
Qed.

Lemma construct_qft_spec (n : Z) :
  0 <= n <= 1023 ->
  construct_qft n = Ok (Circuit n 0 (Spec.qft_gates (Z.to_nat n))).
Proof.
  intros Hn. rewrite construct_qft_emits by assumption.
  rewrite <- (qft_trace_spec (Z.to_nat n)), Z2Nat.id by lia.
  reflexivity.
Qed.

End QFTSpec.

(** ** Complex amplitudes *)

Section Amplitudes.
Import Semantics.

Ltac complex :=
  repeat match goal with
         | a : C |- _ => destruct a
         end;
  unfold Cmul, Cadd, Cexp, C0, C1, Cnorm2; simpl; f_equal; try ring.

Lemma Cadd_C0_r (a : C) : Cadd a C0 = a.
Proof. complex. Qed.

Lemma Cadd_C0_l (a : C) : Cadd C0 a = a.
Proof. complex. Qed.

Lemma Cmul_C1_l (a : C) : Cmul C1 a = a.
Proof. complex. Qed.

Lemma Cmul_C0_l (a : C) : Cmul C0 a = C0.
Proof. complex. Qed.

Lemma Cmul_assoc (a b c : C) : Cmul a (Cmul b c) = Cmul (Cmul a b) c.
Proof. complex. Qed.

Lemma Cexp_add (s t : R) : Cmul (Cexp s) (Cexp t) = Cexp (s + t).
Proof.
  unfold Cmul, Cexp; simpl. rewrite cos_plus, sin_plus. f_equal; ring.
Qed.

Lemma Cexp_0 : Cexp 0 = C1.
Proof. unfold Cexp, C1. now rewrite cos_0, sin_0. Qed.

Lemma Cexp_cancel (s t : R) : (s + t = 0)%R -> Cmul (Cexp s) (Cexp t) = C1.
Proof. intros H. now rewrite Cexp_add, H, Cexp_0. Qed.

(** Two 2x2 matrices applied in a row act as their product. *)
Lemma Cmatrix_apply_twice (a b c d e f x y : C) :
  Cadd (Cmul a (Cadd (Cmul c x) (Cmul d y)))
       (Cmul b (Cadd (Cmul e x) (Cmul f y)))
  = Cadd (Cmul (Cadd (Cmul a c) (Cmul b e)) x)
         (Cmul (Cadd (Cmul a d) (Cmul b f)) y).
Proof. complex. Qed.

Lemma inv_sqrt2_sqr : (/ sqrt 2 * / sqrt 2 = / 2)%R.
Proof.
  rewrite <- Rinv_mult. f_equal. apply sqrt_sqrt. lra.
Qed.

Lemma upd_upd (b : basis) (q : Z) (v w : bool) :
  upd (upd b q v) q w = upd b q w.
Proof.
  apply functional_extensionality. intros k. unfold upd.
  destruct (k =? q); reflexivity.
Qed.

Lemma upd_same (b : basis) (q : Z) : upd b q (b q) = b.
Proof.
  apply functional_extensionality. intros k. unfold upd.
  destruct (Z.eqb_spec k q); congruence.
Qed.

Lemma upd_at (b : basis) (q : Z) (v : bool) : upd b q v q = v.
Proof. unfold upd. now rewrite Z.eqb_refl. Qed.


Lemma apply1_left_inverse (m' m : matrix2) (q : Z) (psi : state) :
  left_inverse m' m -> apply1 m' q (apply1 m q psi) = psi.
Proof.
  intros H. apply functional_extensionality. intros b.
  unfold apply1. rewrite !upd_at, !upd_upd, Cmatrix_apply_twice.
  rewrite (H (b q) false), (H (b q) true).
  destruct (b q) eqn:Hb; simpl.
  - rewrite Cmul_C0_l, Cmul_C1_l, Cadd_C0_l. rewrite <- Hb. now rewrite upd_same.
  - rewrite Cmul_C0_l, Cmul_C1_l, Cadd_C0_r. rewrite <- Hb. now rewrite upd_same.
Qed.

Lemma hadamard_self_inverse (m : matrix2) :
  gate_matrix Qiskit.HGate = Some m -> left_inverse m m.
Proof.
  intros [= <-] r c. pose proof inv_sqrt2_sqr as Hs.
  destruct r, c; unfold Cadd, Cmul, C0, C1; simpl; f_equal; nra.
Qed.

End Amplitudes.

(** ** The inverse transform *)


Section InverseQFT.
Import Qiskit QuantumFourierTransform Semantics.

Lemma qft_gates_shape (n : nat) : List.Forall qft_gate (Spec.qft_gates n).
Proof.
  apply List.Forall_forall. intros i Hi. unfold Spec.qft_gates in Hi.
  apply in_app_iff in Hi as [Hi|Hi].
  - apply in_flat_map in Hi as (k & _ & [<-|Hi]); [constructor|].
    apply in_map_iff in Hi as (j & <- & _). constructor.
  - apply in_map_iff in Hi as (k & <- & _). constructor.
Qed.

Lemma map_result_ok {A B : Type} (f : A -> result B) (g : A -> B)
    (l : list A) :
  (forall a, In a l -> f a = Ok (g a)) -> map_result f l = Ok (map g l).
Proof.
  induction l as [|a l IH]; intros H; simpl; [reflexivity|].
  rewrite H by now left. simpl. rewrite IH by auto using in_cons.
  reflexivity.
Qed.

Lemma inverse_qft_gate (i : instruction) :
  qft_gate i -> inverse_instruction i = Ok (Spec.negate_angle i).
Proof. intros []; reflexivity. Qed.

Lemma inverse_qft_gates (n m : Z) (l : list instruction) :
  List.Forall qft_gate l ->
  inverse (Circuit n m l)
  = Ok (Circuit n m (rev (map Spec.negate_angle l))).
Proof.
  intros Hl. unfold inverse. simpl.
  rewrite (map_result_ok _ Spec.negate_angle).
  - simpl. now rewrite map_rev.
  - intros i Hi. apply inverse_qft_gate.
    rewrite List.Forall_forall in Hl. apply Hl. now apply in_rev.
Qed.

Lemma construct_inverse_qft_spec (n : Z) :
  0 <= n <= 1023 ->
  construct_inverse_qft n
  = Ok (Circuit n 0 (Spec.inverse_qft_gates (Z.to_nat n))).
Proof.
  intros Hn. unfold construct_inverse_qft.
  rewrite construct_qft_spec by assumption. simpl.
  apply inverse_qft_gates, qft_gates_shape.
Qed.

Lemma construct_inverse_qft_overflow (n : Z) :
  1024 <= n -> construct_inverse_qft n = Raise OverflowError.
Proof.
  intros Hn. unfold construct_inverse_qft.
  now rewrite construct_qft_overflow.
Qed.

Lemma swap_twice (b : basis) (q1 q2 : Z) :
  let b' := upd (upd b q1 (b q2)) q2 (b q1) in
  upd (upd b' q1 (b' q2)) q2 (b' q1) = b.
Proof.
  apply functional_extensionality. intros k. unfold upd.
  rewrite !Z.eqb_refl.
  destruct (Z.eqb_spec k q2), (Z.eqb_spec k q1), (Z.eqb_spec q1 q2),
           (Z.eqb_spec q2 q1); congruence.
Qed.

(** Each gate of a Fourier circuit is undone by the same gate with its
    angle negated. *)
Lemma qft_gate_undo (i : instruction) :
  qft_gate i ->
  exists f f',
    apply_instruction i = Some f /\
    apply_instruction (Spec.negate_angle i) = Some f' /\
    forall psi, f' (f psi) = psi.
Proof.
  intros [q | t c q | q1 q2]; simpl.
  - do 2 eexists. repeat split.
    intros psi. apply apply1_left_inverse.
    now apply hadamard_self_inverse.
  - do 2 eexists. repeat split.
    intros psi. apply functional_extensionality. intros b.
    destruct (b c && b q); [|reflexivity].
    rewrite Cmul_assoc, Cexp_cancel by lra. apply Cmul_C1_l.
  - do 2 eexists. repeat split.
    intros psi. apply functional_extensionality. intros b.
    now rewrite swap_twice.
Qed.

Lemma run_app (l1 l2 : list instruction) (psi : state) :
  run (l1 ++ l2) psi
  = match run l1 psi with Some psi' => run l2 psi' | None => None end.
Proof.
  revert psi. induction l1 as [|i l1 IH]; intros psi; simpl; [reflexivity|].
  destruct (apply_instruction i); auto.
Qed.

Lemma run_undo (l : list instruction) :
  List.Forall qft_gate l ->
  forall psi, run (l ++ rev (map Spec.negate_angle l)) psi = Some psi.
Proof.
  induction 1 as [|i l Hi Hl IH]; intros psi; [reflexivity|].
  destruct (qft_gate_undo i Hi) as (f & f' & Hf & Hf' & Hinv).
  simpl. rewrite Hf, app_assoc, run_app, IH. simpl.
  now rewrite Hf', Hinv.
Qed.

End InverseQFT.

(** ** The adder *)

Section Adder.
Import Qiskit QuantumFourierTransform DraperAdder.

(** [number & (1 << i)] is non-zero exactly when bit [i] is set. *)
Lemma land_shiftl_testbit (a i : Z) :
  0 <= i -> negb (Z.land a (Z.shiftl 1 i) =? 0) = Z.testbit a i.
Proof.
  intros Hi. rewrite Z.shiftl_1_l.
  destruct (Z.testbit a i) eqn:Hb.
  - apply negb_true_iff, Z.eqb_neq. intros H0.
    assert (Z.testbit (Z.land a (2 ^ i)) i = false)
      by (rewrite H0; apply Z.bits_0).
    rewrite Z.land_spec, Hb, Z.pow2_bits_true in H by assumption.
    discriminate.
  - apply negb_false_iff, Z.eqb_eq. apply Z.bits_inj'. intros k Hk.
    rewrite Z.land_spec, Z.bits_0, Z.pow2_bits_eqb by assumption.
    destruct (Z.eqb_spec i k); [subst; now rewrite Hb | apply andb_false_r].
Qed.

Lemma fold_left_snoc {A B : Type} (f : A -> B) (l : list A) (acc : list B) :
  fold_left (fun acc x => acc ++ [f x]) l acc = acc ++ map f l.
Proof.
  revert acc. induction l as [|x l IH]; intros acc; simpl.
  - now rewrite app_nil_r.
  - rewrite IH, <- app_assoc. reflexivity.
Qed.

(** The accumulation loop adds up the selected terms. *)
Lemma fold_left_accumulate {A : Type} (sel : A -> bool) (t : A -> R)
    (l : list A) (acc : R) :
  fold_left (fun acc x => if sel x then (acc + t x)%R else acc) l acc
  = (acc + fold_right Rplus 0 (map t (List.filter sel l)))%R.
Proof.
  revert acc. induction l as [|x l IH]; intros acc; simpl.
  - ring.
  - rewrite IH. destruct (sel x); simpl; ring.
Qed.


(** Below 1023 every power in the inner loop converts to a float. *)
Lemma angle_loop_ok (number i : Z) :
  0 <= i <= 1022 ->
  for_in (range (i + 1)) 0%R (fun angle j =>
    if negb (Z.land number (Z.shiftl 1 j) =? 0)
    then term ← two_pi_over_pow2 (i - j + 1); Ok (angle + term)%R
    else Ok angle)
  = Ok (angle_loop number i).
Proof.
  intros Hi. unfold angle_loop. apply for_in_fold.
  intros angle j Hj. apply in_range in Hj.
  destruct (negb _); [|reflexivity].
  now rewrite two_pi_over_pow2_ok by lia.
Qed.

Lemma binary_to_phase_angles_map (number n : Z) :
  n <= 1023 ->
  _binary_to_phase_angles number n = Ok (map (angle_loop number) (range n)).
Proof.
  intros Hn. unfold _binary_to_phase_angles.
  rewrite <- (app_nil_l (map _ _)), <- fold_left_snoc.
  apply for_in_fold. intros angles i Hi. apply in_range in Hi.
  now rewrite angle_loop_ok by lia.
Qed.

(** Whenever the angles are returned, they are the sums of the loop. *)
Lemma binary_to_phase_angles_returned (number n : Z) (angles : list R) :
  _binary_to_phase_angles number n = Ok angles ->
  angles = map (angle_loop number) (range n).
Proof.
  intros H. unfold _binary_to_phase_angles in H.
  rewrite <- (app_nil_l (map _ _)), <- fold_left_snoc.
  refine (for_in_fold_inv _ _ _ _ _ _ H).
  intros acc i acc' _ Hb. apply bind_Ok in Hb as (angle & Ha & Hb).
  injection Hb as <-. f_equal. f_equal. unfold angle_loop.
  refine (for_in_fold_inv _ _ _ _ _ _ Ha).
  intros t j t' _ Ht. destruct (negb _); [|now injection Ht as <-].
  apply bind_Ok in Ht as (term & Hterm & Ht). injection Ht as <-.
  now rewrite (two_pi_over_pow2_value _ _ Hterm).
Qed.

Lemma filter_map_in {A B : Type} (f : A -> B) (p : B -> bool)
    (l : list A) :
  List.filter p (map f l) = map f (List.filter (fun x => p (f x)) l).
Proof.
  induction l as [|x l IH]; simpl; [reflexivity|].
  destruct (p (f x)); simpl; now rewrite IH.
Qed.

Lemma angle_loop_spec (number : Z) (i : nat) :
  angle_loop number (Z.of_nat i) = Spec.phase_angle number i.
Proof.
  unfold angle_loop, Spec.phase_angle.
  rewrite (fold_left_accumulate
             (fun j => negb (Z.land number (Z.shiftl 1 j) =? 0))
             (fun j => (2 * PI / powerRZ 2 (Z.of_nat i - j + 1))%R)).
  rewrite Rplus_0_l. f_equal.
  replace (Z.of_nat i + 1) with (Z.of_nat (i + 1)) by lia.
  rewrite range_of_nat, filter_map_in, map_map.
  rewrite (List.filter_ext _ (fun j => Z.testbit number (Z.of_nat j)))
    by (intros j; apply land_shiftl_testbit; lia).
  apply map_ext_in. intros j Hj. apply filter_In in Hj as [Hj _].
  apply in_seq in Hj. rewrite pow_powerRZ. do 2 f_equal. lia.
Qed.

End Adder.

Section AdderSpec.
Import Qiskit QuantumFourierTransform DraperAdder.

Lemma ge_pow2_false (x n : Z) : 0 <= n -> x < 2 ^ n -> ge_pow2 x n = false.
Proof.
  intros Hn Hx. unfold ge_pow2.
  replace (0 <=? n) with true by (symmetry; apply Z.leb_le; lia).
  apply Z.leb_gt. assumption.
Qed.


Lemma new_circuit_ok (n m : Z) :
  0 <= n -> 0 <= m -> new_circuit n m = Ok (Circuit n m []).
Proof.
  intros Hn Hm. unfold new_circuit.
  replace (n <? 0) with false by (symmetry; apply Z.ltb_ge; lia).
  replace (m <? 0) with false by (symmetry; apply Z.ltb_ge; lia).
  reflexivity.
Qed.

Lemma compose_ok (n m m' : Z) (l l' : list instruction) :
  m' <= m ->
  compose (Circuit n m l) (Circuit n m' l') = Ok (Circuit n m (l ++ l')).
Proof.
  intros Hm. unfold compose. simpl.
  replace (n <? n) with false by (symmetry; apply Z.ltb_irrefl).
  replace (m <? m') with false by (symmetry; apply Z.ltb_ge; lia).
  reflexivity.
Qed.

Lemma getitem_map_range {A : Type} (f : Z -> A) (n i : Z) :
  0 <= i < n -> getitem (map f (range n)) i = Ok (f i).
Proof.
  intros Hi. unfold getitem.
  replace (i <? 0) with false by (symmetry; apply Z.ltb_ge; lia).
  cbv zeta.
  replace (i <? 0) with false by (symmetry; apply Z.ltb_ge; lia).
  replace n with (Z.of_nat (Z.to_nat n)) by lia.
  rewrite range_of_nat, map_map.
  rewrite (map_nth_error _ (Z.to_nat i) (seq 0 (Z.to_nat n))
             (d := Z.to_nat i)).
  - now rewrite Z2Nat.id by lia.
  - rewrite (nth_error_nth' _ 0%nat) by (rewrite length_seq; lia).
    rewrite seq_nth by lia. reflexivity.
Qed.




Lemma flips_spec (a : Z) (n : nat) :
  flat_map (flip_step a) (range (Z.of_nat n)) = Spec.flips a n.
Proof.
  rewrite range_of_nat. unfold Spec.flips.
  induction (seq 0 n) as [|i l IH]; simpl; [reflexivity|].
  unfold flip_step at 1. rewrite land_shiftl_testbit by lia.
  destruct (Z.testbit a (Z.of_nat i)); simpl; now rewrite IH.
Qed.

Lemma rotations_spec (b : Z) (n : nat) :
  flat_map (rotation_step b) (range (Z.of_nat n)) = Spec.rotations b n.
Proof.
  rewrite range_of_nat. unfold Spec.rotations.
  induction (seq 0 n) as [|i l IH]; [reflexivity|].
  cbn [map flat_map]. rewrite IH.
  unfold rotation_step. now rewrite angle_loop_spec.
Qed.

Lemma measurements_spec (n : nat) :
  flat_map measure_step
    (combine (range (Z.of_nat n)) (range (Z.of_nat n)))
  = Spec.measurements n.
Proof.
  rewrite range_of_nat. unfold Spec.measurements.
  induction (seq 0 n) as [|i l IH]; [reflexivity|].
  cbn [map flat_map combine]. now rewrite IH.
Qed.

Lemma in_combine_same {A : Type} (l : list A) (p : A * A) :
  In p (combine l l) -> fst p = snd p /\ In (fst p) l.
Proof.
  induction l as [|x l IH]; simpl; [tauto|].
  intros [<-|H]; simpl; [tauto|]. apply IH in H. tauto.
Qed.

Lemma measure_all_ok (n : Z) (l : list instruction) :
  0 <= n ->
  measure (Circuit n n l) (range n) (range n)
  = Ok (Circuit n n
          (l ++ flat_map measure_step (combine (range n) (range n)))).
Proof.
  intros Hn. unfold measure. simpl.
  rewrite map_result_bit_index by (intros i; apply in_range). simpl.
  rewrite Nat.eqb_refl.
  apply (for_in_emit _ measure_step _ n n); try reflexivity.
  intros c qc Hqc Hq Hc. apply in_combine_same in Hqc as [Heq Hin].
  apply in_range in Hin.
  rewrite append_measure by (rewrite ?Hq, ?Hc, <- ?Heq; lia).
  rewrite push_eq, Hq, Hc. reflexivity.
Qed.

(** The loop that prepares the first register never fails. *)
Lemma flips_emitted (a n : Z) (l : list instruction) :
  for_in (range n) (Circuit n n l) (fun circuit i =>
    if negb (Z.land a (Z.shiftl 1 i) =? 0) then x circuit i
    else Ok circuit)
  = Ok (Circuit n n (l ++ flat_map (flip_step a) (range n))).
Proof.
  apply (for_in_emit (range n) (flip_step a) _ n n); try reflexivity.
  intros c i Hi Hq Hc. apply in_range in Hi. unfold flip_step.
  destruct (negb (Z.land a (Z.shiftl 1 i) =? 0)).
  - unfold x. rewrite append_1; try reflexivity; try lia.
    rewrite push_eq, Hq, Hc. reflexivity.
  - rewrite app_nil_r. destruct c; simpl in *; congruence.
Qed.

Lemma construct_adder_spec (a b n : Z) :
  0 <= n <= 1023 -> a < 2 ^ n -> b < 2 ^ n ->
  construct_adder a b n
  = Ok (Circuit n n (Spec.adder_gates a b (Z.to_nat n))).
Proof.
  intros [Hn Hmax] Ha Hb. unfold construct_adder.
  rewrite !ge_pow2_false by assumption. simpl.
  rewrite new_circuit_ok by assumption. simpl.
  rewrite flips_emitted.
  simpl. rewrite construct_qft_spec by lia. simpl.
  rewrite compose_ok by assumption. simpl.
  rewrite binary_to_phase_angles_map by assumption. simpl.
  rewrite (for_in_emit (range n) (rotation_step b) _ n n); try reflexivity.
  2:{ intros c i Hi Hq Hc. apply in_range in Hi.
      rewrite getitem_map_range by assumption.
      simpl. unfold p. rewrite append_1; try reflexivity; try lia.
      rewrite push_eq, Hq, Hc. reflexivity. }
  simpl. rewrite construct_inverse_qft_spec by lia. simpl.
  rewrite compose_ok by assumption. simpl.
  rewrite measure_all_ok by assumption. simpl.
  unfold Spec.adder_gates.
  rewrite <- (flips_spec a), <- (rotations_spec b), <- measurements_spec.
  rewrite Z2Nat.id by assumption.
  now rewrite <- !app_assoc.
Qed.

(** From 1024 qubits on, the operands pass the guard and the first register
    is prepared, but the Fourier circuit cannot be built. *)
Lemma construct_adder_overflow (a b n : Z) :
  1024 <= n -> a < 2 ^ n -> b < 2 ^ n ->
  construct_adder a b n = Raise OverflowError.
Proof.
  intros Hn Ha Hb. unfold construct_adder.
  rewrite !ge_pow2_false by (assumption || lia). simpl.
  rewrite new_circuit_ok by lia. simpl.
  rewrite flips_emitted. simpl.
  now rewrite construct_qft_overflow.
Qed.

End AdderSpec.

(** ** The basis transformer *)



Section TransformerProofs.
Import Qiskit GateBasisTransformer.

Variable angles : gate -> result (R * R * R).
Variable decompose : QuantumCircuit -> result QuantumCircuit.

Lemma append_data (c c' : QuantumCircuit) (g : gate) (qs cs : list Z) :
  append c g qs cs = Ok c' ->
  exists qs' cs', c' = push c (Instruction g qs' cs').
Proof.
  unfold append. intros H.
  apply bind_Ok in H as (qs' & _ & H).
  apply bind_Ok in H as (cs' & _ & H).
  destruct (measures g && _); [discriminate|].
  destruct (negb _); [discriminate|].
  destruct (has_duplicates qs'); [discriminate|].
  injection H as <-. eauto.
Qed.

Lemma decompose_single_of_angles (g : gate) (q : Z) (theta phi lam : R) :
  angles g = Ok (theta, phi, lam) ->
  _decompose_single_qubit_gate angles g q
  = Ok (zsx_sequence theta phi lam q).
Proof.
  intros H. unfold _decompose_single_qubit_gate. simpl.
  rewrite H. reflexivity.
Qed.

Lemma decompose_single_emits (g : gate) (q : Z)
    (l : list (gate * list Z)) :
  _decompose_single_qubit_gate angles g q = Ok l ->
  exists theta phi lam,
    angles g = Ok (theta, phi, lam) /\ l = zsx_sequence theta phi lam q.
Proof.
  intros H. destruct (angles g) as [[[theta phi] lam]|e] eqn:Ha.
  - rewrite (decompose_single_of_angles _ _ _ _ _ Ha) in H.
    injection H as <-. eauto.
  - unfold _decompose_single_qubit_gate in H. simpl in H.
    rewrite Ha in H. discriminate.
Qed.

Lemma rz_basis : "rz" ∈ basis_gates.
Proof. unfold basis_gates. set_solver. Qed.

Lemma sx_basis : "sx" ∈ basis_gates.
Proof. unfold basis_gates. set_solver. Qed.

Lemma cx_basis : "cx" ∈ basis_gates.
Proof. unfold basis_gates. set_solver. Qed.

Lemma append_basis (c c' : QuantumCircuit) (g : gate) (qs cs : list Z) :
  lower (name g) ∈ basis_gates ->
  List.Forall basis_named (data c) ->
  append c g qs cs = Ok c' ->
  List.Forall basis_named (data c').
Proof.
  intros Hg Hc H. apply append_data in H as (qs' & cs' & ->). simpl.
  apply List.Forall_app. split; [assumption|].
  constructor; [exact Hg | constructor].
Qed.

Lemma append_all_basis (c c' : QuantumCircuit)
    (gates : list (gate * list Z)) :
  List.Forall (fun gq => lower (name (fst gq)) ∈ basis_gates) gates ->
  List.Forall basis_named (data c) ->
  append_all c gates = Ok c' ->
  List.Forall basis_named (data c').
Proof.
  intros Hg Hc H. unfold append_all in H.
  refine (for_in_invariant (fun c => List.Forall basis_named (data c))
            gates _ _ c c' Hc H).
  intros s gq s' Hin Hs Happ. rewrite List.Forall_forall in Hg.
  eapply append_basis; eauto.
Qed.

Lemma zsx_sequence_basis (theta phi lam : R) (q : Z) :
  List.Forall (fun gq => lower (name (fst gq)) ∈ basis_gates)
    (zsx_sequence theta phi lam q).
Proof.
  unfold zsx_sequence.
  repeat constructor; simpl; auto using rz_basis, sx_basis.
Qed.

Lemma decompose_single_basis (c c' : QuantumCircuit) (g : gate) (q : Z)
    (l : list (gate * list Z)) :
  _decompose_single_qubit_gate angles g q = Ok l ->
  List.Forall basis_named (data c) ->
  append_all c l = Ok c' ->
  List.Forall basis_named (data c').
Proof.
  intros H Hc Happ.
  apply decompose_single_emits in H as (theta & phi & lam & _ & ->).
  eapply append_all_basis; eauto using zsx_sequence_basis.
Qed.


Lemma transform_node_basis (c c' : QuantumCircuit) (node : instruction) :
  expands_to_basis decompose node ->
  List.Forall basis_named (data c) ->
  transform_node angles decompose c node = Ok c' ->
  List.Forall basis_named (data c').
Proof.
  intros Hdec Hc. unfold transform_node.
  destruct (String.eqb (name (operation node)) "measure").
  { intros [= <-]. assumption. }
  destruct (bool_decide (lower (name (operation node)) ∈ basis_gates))
    eqn:Hb.
  { apply bool_decide_eq_true in Hb. now apply append_basis. }
  destruct (length (qubits node) =? 1)%nat.
  { intros H. apply bind_Ok in H as (q0 & _ & H).
    apply bind_Ok in H as (l & Hl & H).
    eapply decompose_single_basis; eauto. }
  destruct (String.eqb_spec (name (operation node)) "cx") as [Hcx|_].
  { apply append_basis; [|assumption]. rewrite Hcx. apply cx_basis. }
  intros H. apply bind_Ok in H as (t0 & Ht0 & H).
  apply bind_Ok in H as (t1 & Ht1 & H).
  apply bind_Ok in H as (t2 & Ht2 & H).
  assert (Htemp : temp_circuit_of node = Ok t1).
  { unfold new_circuit in Ht0. destruct (_ || _); [discriminate|].
    injection Ht0 as <-. exact Ht1. }
  refine (for_in_invariant (fun c => List.Forall basis_named (data c))
            (data t2) _ _ c c' Hc H).
  intros s inst s' Hin Hs Hstep.
  destruct (length (qubits inst) =? 1)%nat eqn:Hlen.
  - apply bind_Ok in Hstep as (q0 & _ & Hstep).
    apply bind_Ok in Hstep as (k & _ & Hstep).
    apply bind_Ok in Hstep as (oq & _ & Hstep).
    apply bind_Ok in Hstep as (l & Hl & Hstep).
    eapply decompose_single_basis; eauto.
  - apply bind_Ok in Hstep as (mq & _ & Hstep).
    eapply append_basis; eauto.
    exact (Hdec _ _ _ Htemp Ht2 Hin Hlen).
Qed.

Lemma transform_circuit_basis (c c' : QuantumCircuit) :
  decomposes_to_basis decompose c ->
  transform_circuit angles decompose c = Ok c' ->
  List.Forall basis_named (data c').
Proof.
  intros Hdec H. unfold transform_circuit in H.
  apply bind_Ok in H as (c0 & H0 & H).
  refine (for_in_invariant (fun c => List.Forall basis_named (data c))
            (data c) _ _ c0 c' _ H).
  - intros s node s' Hnode Hs. apply transform_node_basis; auto.
  - unfold new_circuit in H0. destruct (_ || _); [discriminate|].
    injection H0 as <-. constructor.
Qed.

End TransformerProofs.

(** ** Gate counts *)




Section GateCounts.
Import Qiskit GateBasisTransformer.


Lemma get_gate_counts_fold (c : QuantumCircuit) :
  get_gate_counts c
  = fold_left count_step (data c) (gset_to_gmap 0 basis_gates).
Proof. reflexivity. Qed.

Lemma count_fold_lookup (l : list instruction) (m : gmap string Z)
    (k : string) :
  fold_left count_step l m !! k
  = match m !! k with
    | Some v => Some (v + occurrences k l)
    | None => None
    end.
Proof.
  revert m. induction l as [|i l IH]; intros m; simpl.
  - unfold occurrences; simpl. destruct (m !! k); f_equal; lia.
  - rewrite IH. unfold count_step at 1, occurrences. simpl.
    destruct (String.eqb_spec (lower (name (operation i))) k) as [->|Hne].
    + destruct (m !! k) as [v|] eqn:Hk.
      * rewrite lookup_insert_eq. simpl. f_equal. lia.
      * now rewrite Hk.
    + destruct (m !! lower (name (operation i))) as [v|]; [|reflexivity].
      now rewrite lookup_insert_ne.
Qed.

Lemma total_count_incr (m : gmap string Z) (k : string) (v : Z) :
  m !! k = Some v -> total_count (<[k := v + 1]> m) = total_count m + 1.
Proof.
  intros Hk. rewrite <- (insert_delete_id m k v Hk) at 2.
  rewrite <- (insert_delete_eq m k (v + 1)). unfold total_count.
  rewrite !map_fold_insert_L; try apply lookup_delete_eq; intros; lia.
Qed.

Lemma count_fold_total (l : list instruction) (m : gmap string Z) :
  (forall k, is_Some (m !! k) <-> k ∈ basis_gates) ->
  total_count (fold_left count_step l m)
  = total_count m + basis_instructions l.
Proof.
  revert m. induction l as [|i l IH]; intros m Hm; simpl.
  - unfold basis_instructions; simpl. lia.
  - unfold basis_instructions. simpl. unfold count_step at 2.
    destruct (m !! lower (name (operation i))) as [v|] eqn:Hk.
    + rewrite IH.
      * rewrite total_count_incr by assumption.
        rewrite bool_decide_eq_true_2
          by (apply Hm; rewrite Hk; eauto).
        unfold basis_instructions. simpl. lia.
      * intros k. rewrite <- Hm.
        destruct (decide (lower (name (operation i)) = k)) as [<-|Hne].
        -- rewrite lookup_insert_eq, Hk. split; eauto.
        -- now rewrite lookup_insert_ne.
    + rewrite IH by assumption.
      rewrite bool_decide_eq_false_2; [reflexivity|].
      intros Hin. apply Hm in Hin. rewrite Hk in Hin.
      destruct Hin; discriminate.
Qed.

Lemma initial_counts_keys (k : string) :
  is_Some ((gset_to_gmap 0 basis_gates : gmap string Z) !! k)
  <-> k ∈ basis_gates.
Proof.
  rewrite lookup_gset_to_gmap. unfold guard.
  destruct (decide (k ∈ basis_gates)); simpl; split; eauto; try tauto.
  intros []; discriminate.
Qed.

(** Every basis name is a key, bound to the number of its occurrences;
    no other name is a key. *)
Lemma get_gate_counts_lookup (c : QuantumCircuit) (k : string) :
  get_gate_counts c !! k
  = if decide (k ∈ basis_gates) then Some (occurrences k (data c))
    else None.
Proof.
  rewrite get_gate_counts_fold, count_fold_lookup, lookup_gset_to_gmap.
  destruct (decide (k ∈ basis_gates)) as [Hk|Hk].
  - rewrite option_guard_True by assumption. reflexivity.
  - rewrite option_guard_False by assumption. reflexivity.
Qed.

Lemma get_gate_counts_total (c : QuantumCircuit) :
  total_count (get_gate_counts c) = basis_instructions (data c).
Proof.
  rewrite get_gate_counts_fold, count_fold_total
    by apply initial_counts_keys.
  reflexivity.
Qed.

Lemma basis_instructions_all (l : list instruction) :
  List.Forall basis_named l -> basis_instructions l = Z.of_nat (length l).
Proof.
  intros H. unfold basis_instructions. f_equal.
  induction H as [|i l Hi Hl IH]; simpl; [reflexivity|].
  rewrite bool_decide_eq_true_2 by assumption. simpl. now rewrite IH.
Qed.

End GateCounts.

(** ** Transformed circuits whose decomposer stays within the basis *)

Section TransformedCounts.
Import Qiskit GateBasisTransformer.

Variable angles : gate -> result (R * R * R).
Variable decompose : QuantumCircuit -> result QuantumCircuit.

(** A measurement is skipped: the output circuit is left as it is. *)
Lemma transform_node_measure (c : QuantumCircuit) (qs cs : list Z) :
  transform_node angles decompose c (Instruction Measure qs cs) = Ok c.
Proof. reflexivity. Qed.

Lemma basis_named_not_measure (i : instruction) :
  basis_named i -> name (operation i) <> "measure".
Proof.
  unfold basis_named. intros Hi Hm. rewrite Hm in Hi.
  assert (Hf : bool_decide (lower "measure" ∈ basis_gates) = false)
    by reflexivity.
  apply bool_decide_eq_false in Hf. exact (Hf Hi).
Qed.

Lemma transform_circuit_no_measure (c c' : QuantumCircuit) :
  decomposes_to_basis decompose c ->
  transform_circuit angles decompose c = Ok c' ->
  List.Forall (fun i => name (operation i) <> "measure") (data c').
Proof.
  intros Hdec H.
  eapply List.Forall_impl; [apply basis_named_not_measure|].
  eapply transform_circuit_basis; eauto.
Qed.

Lemma transform_circuit_counts (c c' : QuantumCircuit) :
  decomposes_to_basis decompose c ->
  transform_circuit angles decompose c = Ok c' ->
  total_count (get_gate_counts c') = Z.of_nat (length (data c')).
Proof.
  intros Hdec H. rewrite get_gate_counts_total.
  apply basis_instructions_all.
  eapply transform_circuit_basis; eauto.
Qed.

End TransformedCounts.

(** ** The decomposer of the gate library on standard gates *)

Section StandardGates.
Import Qiskit GateBasisTransformer.

Lemma append_arity (c c' : QuantumCircuit) (g : gate) (qs : list Z) :
  append c g qs [] = Ok c' ->
  exists qs', c' = push c (Instruction g qs' [])
              /\ length qs' = gate_num_qubits g.
Proof.
  unfold append. intros H.
  apply bind_Ok in H as (qs' & _ & H). simpl in H.
  destruct (measures g && _); [discriminate|].
  destruct (length qs' =? gate_num_qubits g)%nat eqn:Hlen;
    [|discriminate].
  destruct (gate_num_clbits g); [|discriminate]. simpl in H.
  destruct (has_duplicates qs'); [discriminate|].
  injection H as <-. exists qs'. split; [reflexivity|].
  now apply Nat.eqb_eq.
Qed.

(** Expanding a controlled phase or a swap leaves [cx] as the only gate on
    more than one qubit; the other standard gates have no definition and are
    narrow or already [cx]. *)
Lemma standard_expands_to_basis (node : instruction) :
  standard_gate (operation node) = true ->
  expands_to_basis Collaborators.decompose node.
Proof.
  intros Hstd t t' inst Htemp Hdec Hin Hlen.
  apply append_arity in Htemp as (qs & -> & Hqs).
  injection Hdec as <-. simpl in Hin. rewrite app_nil_r in Hin.
  destruct (operation node) eqn:Hop; try discriminate Hstd;
    simpl in Hin, Hqs;
    repeat match goal with
           | H : _ \/ _ |- _ => destruct H as [<-|H]
           | H : False |- _ => destruct H
           end;
    simpl in Hlen; try rewrite Hqs in Hlen; try discriminate Hlen;
    apply cx_basis.
Qed.

Lemma standard_decomposes_to_basis (c : QuantumCircuit) :
  List.Forall (fun i => standard_gate (operation i) = true) (data c) ->
  decomposes_to_basis Collaborators.decompose c.
Proof.
  intros H node Hnode. apply standard_expands_to_basis.
  rewrite List.Forall_forall in H. now apply H.
Qed.

End StandardGates.

(** ** What the single-qubit decomposition does to a phase gate *)



Section PhaseGateDecomposition.
Import Qiskit Semantics GateBasisTransformer Collaborators.

Lemma apply1_ext (m m' : matrix2) (q : Z) (psi : state) :
  (forall r c, m r c = m' r c) -> apply1 m q psi = apply1 m' q psi.
Proof.
  intros H. apply functional_extensionality. intros b.
  unfold apply1. now rewrite !H.
Qed.

Lemma apply1_compose (m' m : matrix2) (q : Z) (psi : state) :
  apply1 m' q (apply1 m q psi) = apply1 (mat_mul m' m) q psi.
Proof.
  apply functional_extensionality. intros b. unfold apply1, mat_mul.
  now rewrite !upd_at, !upd_upd, Cmatrix_apply_twice.
Qed.

Lemma apply1_identity (q : Z) (psi : state) :
  apply1 (diag C1 C1) q psi = psi.
Proof.
  apply functional_extensionality. intros b. unfold apply1, diag.
  destruct (b q) eqn:Hb; simpl.
  - rewrite Cmul_C0_l, Cmul_C1_l, Cadd_C0_l, <- Hb. now rewrite upd_same.
  - rewrite Cmul_C0_l, Cmul_C1_l, Cadd_C0_r, <- Hb. now rewrite upd_same.
Qed.

Lemma rz_zero_identity (t : R) (q : Z) (psi : state) :
  t = 0%R -> apply1 (diag (Cexp (- t / 2)) (Cexp (t / 2))) q psi = psi.
Proof.
  intros ->.
  replace (- 0 / 2)%R with 0%R by lra.
  replace (0 / 2)%R with 0%R by lra.
  rewrite Cexp_0. apply apply1_identity.
Qed.

Lemma sx_sx_is_x (m mx : matrix2) :
  gate_matrix SXGate = Some m -> gate_matrix XGate = Some mx ->
  forall r c, mat_mul m m r c = mx r c.
Proof.
  intros [= <-] [= <-] r c.
  destruct r, c; unfold mat_mul, Cadd, Cmul, C0, C1; simpl; f_equal; lra.
Qed.

(** With [theta = phi = lambda = 0] the emitted sequence is a bit flip. *)
Lemma zsx_zero_is_bit_flip (q : Z) (psi : state) :
  run (as_instructions (zsx_sequence 0 (0 / 2) (0 / 2) q)) psi
  = run [Instruction XGate [q] []] psi.
Proof.
  simpl. f_equal.
  rewrite !(rz_zero_identity (0 / 2)), (rz_zero_identity 0) by lra.
  rewrite apply1_compose.
  apply apply1_ext. now apply sx_sx_is_x.
Qed.

Lemma principal_0 : principal 0 = 0%R.
Proof.
  unfold principal. pose proof PI_RGT_0.
  replace ((PI - 0) / (2 * PI))%R with (/ 2)%R by (field; lra).
  rewrite <- (tech_up (/ 2) 1) by lra.
  change (IZR (1 - 1)) with 0%R. ring.
Qed.

Lemma zyz_angles_phase_zero :
  zyz_angles (PhaseGate 0) = Ok (0, 0 / 2, 0 / 2)%R.
Proof.
  unfold zyz_angles. rewrite principal_0. do 2 f_equal.
  - f_equal. lra.
  - lra.
Qed.

End PhaseGateDecomposition.

(** ** Register width *)

Section Width.

Lemma bit_length_nonneg (x : Z) : 0 <= bit_length x.
Proof.
  unfold bit_length. destruct (x =? 0); [lia|].
  pose proof (Z.log2_nonneg (Z.abs x)). lia.
Qed.

Lemma bit_length_fits (x : Z) : 0 <= x -> Spec.fits x (bit_length x).
Proof.
  intros Hx. unfold Spec.fits, bit_length.
  destruct (Z.eqb_spec x 0) as [->|Hne]; [reflexivity|].
  rewrite Z.abs_eq by assumption.
  apply Z.log2_spec. lia.
Qed.

Lemma bit_length_least (x m : Z) :
  0 <= x -> Spec.fits x m -> bit_length x <= m.
Proof.
  unfold Spec.fits, bit_length. intros Hx Hm.
  assert (0 <= m).
  { destruct (Z.lt_ge_cases m 0) as [Hneg|]; [|assumption].
    rewrite Z.pow_neg_r in Hm by assumption. lia. }
  destruct (Z.eqb_spec x 0) as [->|Hne]; [assumption|].
  rewrite Z.abs_eq by assumption.
  apply Z.log2_lt_pow2 in Hm; lia.
Qed.

Lemma fits_mono (x n m : Z) : 0 <= n <= m -> Spec.fits x n -> Spec.fits x m.
Proof.
  unfold Spec.fits. intros Hnm Hx.
  pose proof (Z.pow_le_mono_r 2 n m). lia.
Qed.


Lemma chosen_width_fits (a b : Z) :
  0 <= a -> 0 <= b ->
  Spec.fits a (chosen_width a b) /\ Spec.fits b (chosen_width a b)
  /\ Spec.fits (a + b) (chosen_width a b).
Proof.
  intros Ha Hb. unfold chosen_width.
  pose proof (bit_length_nonneg a). pose proof (bit_length_nonneg b).
  pose proof (bit_length_nonneg (a + b)).
  repeat split.
  - apply (fits_mono a (bit_length a)); [lia | now apply bit_length_fits].
  - apply (fits_mono b (bit_length b)); [lia | now apply bit_length_fits].
  - apply (fits_mono (a + b) (bit_length (a + b)));
      [lia | apply bit_length_fits; lia].
Qed.

Lemma chosen_width_least (a b m : Z) :
  0 <= a -> 0 <= b ->
  Spec.fits a m -> Spec.fits b m -> Spec.fits (a + b) m ->
  chosen_width a b <= m.
Proof.
  intros Ha Hb Fa Fb Fab. unfold chosen_width.
  pose proof (bit_length_least a m Ha Fa).
  pose proof (bit_length_least b m Hb Fb).
  pose proof (bit_length_least (a + b) m ltac:(lia) Fab).
  lia.
Qed.

End Width.

(** * The properties of the specification *)



Section Claims.
Import Qiskit QuantumFourierTransform DraperAdder GateBasisTransformer.
Import Semantics.

(** C1, as stated: the adder circuit is returned for every positive [n].
    It is not: with 1024 qubits the operands 3 and 5 pass the guard, but
    the first angle [2 pi / 2^1024] of the Fourier circuit cannot be
    computed, and no circuit is returned. *)
Lemma construct_adder_3_5_1024_fails :
  construct_adder 3 5 1024 = Raise OverflowError
  /\ ~ (exists circuit, construct_adder 3 5 1024 = Ok circuit).
Proof.
  assert (H : construct_adder 3 5 1024 = Raise OverflowError).
  { apply construct_adder_overflow; [lia | reflexivity | reflexivity]. }
  split; [exact H|]. intros [circuit Hc]. rewrite H in Hc. discriminate.
Qed.

(** C1, amended.  For non-negative [a], [b] and positive [n] with
    [a < 2^n] and [b < 2^n]: if [n <= 1023], [construct_adder a b n]
    returns a circuit over [n] qubits and [n] classical bits whose
    instructions are, in this order: an X on qubit [i] for every bit [i]
    set in [a]; the circuit of [construct_qft n]; one phase rotation per
    qubit [i] whose angle is the sum over the bits [j <= i] set in [b] of
    [2 pi / 2^(i-j+1)]; the circuit of [construct_inverse_qft n]; a
    measurement of every qubit [i] into classical bit [i].  If
    [n >= 1024] it raises the overflow error instead. *)
Theorem construct_adder_layout (a b n : Z) :
  0 <= a -> 0 <= b -> 0 < n -> a < 2 ^ n -> b < 2 ^ n ->
  (n <= 1023 ->
   exists circuit qft iqft,
     construct_adder a b n = Ok circuit /\
     construct_qft n = Ok qft /\
     construct_inverse_qft n = Ok iqft /\
     num_qubits circuit = n /\ num_clbits circuit = n /\
     data circuit
     = Spec.flips a (Z.to_nat n) ++ data qft
       ++ Spec.rotations b (Z.to_nat n) ++ data iqft
       ++ Spec.measurements (Z.to_nat n))
  /\ (1024 <= n -> construct_adder a b n = Raise OverflowError).
Proof.
  intros _ _ Hn Ha Hb. split.
  - intros Hmax. do 3 eexists.
    rewrite construct_adder_spec, construct_qft_spec,
      construct_inverse_qft_spec by lia.
    repeat split.
  - intros Hmin. now apply construct_adder_overflow.
Qed.

Lemma construct_adder_layout_3_5 :
  exists circuit qft iqft,
    construct_adder 3 5 4 = Ok circuit /\
    construct_qft 4 = Ok qft /\
    construct_inverse_qft 4 = Ok iqft /\
    num_qubits circuit = 4 /\ num_clbits circuit = 4 /\
    data circuit
    = Spec.flips 3 4 ++ data qft ++ Spec.rotations 5 4 ++ data iqft
      ++ Spec.measurements 4.
Proof.
  apply (proj1 (construct_adder_layout 3 5 4 ltac:(lia) ltac:(lia)
                  ltac:(lia) ltac:(lia) ltac:(lia))).
  lia.
Defined.




(** C3, as stated: [quantum_sum a b] returns a circuit for all
    non-negative [a] and [b].  It does not for the operands [2^1023] and
    0, whose width is 1024. *)
Lemma quantum_sum_wide_fails :
  quantum_sum (2 ^ 1023) 0 = Raise OverflowError
  /\ ~ (exists circuit n, quantum_sum (2 ^ 1023) 0 = Ok (circuit, n)).
Proof.
  assert (H : quantum_sum (2 ^ 1023) 0 = Raise OverflowError).
  { unfold quantum_sum.
    change (Z.max (bit_length (2 ^ 1023 + 0))
              (Z.max (bit_length (2 ^ 1023)) (bit_length 0))) with 1024.
    rewrite construct_adder_overflow;
      [reflexivity | lia | reflexivity | reflexivity]. }
  split; [exact H|]. intros (circuit & n & Hc). rewrite H in Hc.
  discriminate.
Qed.

(** C3, amended.  For non-negative [a] and [b], [quantum_sum a b] picks
    [n = max (bit_length (a+b), bit_length a, bit_length b)], which is the
    least width in which [a], [b] and [a + b] are all representable.  If
    [n <= 1023] it returns the circuit of [construct_adder a b n] together
    with [n]; if [n >= 1024] it raises the overflow error.  For [a = 3],
    [b = 5] the width is 4. *)
Theorem quantum_sum_width (a b : Z) :
  0 <= a -> 0 <= b ->
  exists n,
    n = Z.max (bit_length (a + b)) (Z.max (bit_length a) (bit_length b)) /\
    (Spec.fits a n /\ Spec.fits b n /\ Spec.fits (a + b) n) /\
    (forall m, Spec.fits a m -> Spec.fits b m -> Spec.fits (a + b) m ->
               n <= m) /\
    (n <= 1023 ->
     exists circuit,
       quantum_sum a b = Ok (circuit, n) /\
       construct_adder a b n = Ok circuit) /\
    (1024 <= n -> quantum_sum a b = Raise OverflowError).
Proof.
  intros Ha Hb.
  destruct (chosen_width_fits a b Ha Hb) as (Fa & Fb & Fab).
  assert (Hn : 0 <= chosen_width a b).
  { unfold chosen_width. pose proof (bit_length_nonneg a). lia. }
  exists (chosen_width a b).
  split; [reflexivity|]. split; [now repeat split|].
  split; [intros m; now apply chosen_width_least|]. split.
  - intros Hmax.
    exists (Circuit (chosen_width a b) (chosen_width a b)
              (Spec.adder_gates a b (Z.to_nat (chosen_width a b)))).
    pose proof (construct_adder_spec a b _ (conj Hn Hmax) Fa Fb) as Hc.
    split; [|exact Hc].
    unfold quantum_sum. fold (chosen_width a b). now rewrite Hc.
  - intros Hmin. unfold quantum_sum. fold (chosen_width a b).
    now rewrite construct_adder_overflow.
Qed.

Lemma quantum_sum_width_3_5 :
  exists circuit, quantum_sum 3 5 = Ok (circuit, 4).
Proof.
  destruct (quantum_sum_width 3 5) as (n & Hn & _ & _ & Hsum & _);
    [lia | lia |].
  destruct Hsum as (circuit & Hsum & _); [rewrite Hn; vm_compute; discriminate|].
  exists circuit. rewrite Hsum, Hn. reflexivity.
Defined.

(** C4, as stated: [construct_qft n] returns its circuit for every
    positive [n].  It does not at [n = 1024], where the controlled phase
    between qubits 1023 and 0 needs the angle [2 pi / 2^1024]. *)
Lemma construct_qft_1024_fails :
  construct_qft 1024 = Raise OverflowError
  /\ ~ (exists circuit, construct_qft 1024 = Ok circuit).
Proof.
  assert (H : construct_qft 1024 = Raise OverflowError)
    by (apply construct_qft_overflow; lia).
  split; [exact H|]. intros [circuit Hc]. rewrite H in Hc. discriminate.
Qed.

(** C4, amended.  For positive [n <= 1023], [construct_qft n] returns a
    circuit over [n] qubits and no classical bits whose instructions are:
    for each qubit [i] from 0 to [n-1], a Hadamard on [i] followed, for
    each [j] with [i < j < n] in increasing order, by a controlled phase
    with control [j], target [i] and angle [2 pi / 2^(j-i+1)]; and
    finally, for each [i < n/2], a swap of qubit [i] with qubit [n-1-i].
    For [n >= 1024] it raises the overflow error. *)
Theorem construct_qft_gates (n : Z) :
  0 < n ->
  (n <= 1023 ->
   construct_qft n = Ok (Circuit n 0 (Spec.qft_gates (Z.to_nat n))))
  /\ (1024 <= n -> construct_qft n = Raise OverflowError).
Proof.
  intros Hn. split.
  - intros Hmax. apply construct_qft_spec. lia.
  - apply construct_qft_overflow.
Qed.

Lemma construct_qft_gates_3 :
  construct_qft 3 = Ok (Circuit 3 0 (Spec.qft_gates 3)).
Proof.
  apply (proj1 (construct_qft_gates 3 ltac:(lia))). lia.
Defined.

(** C5, as stated: [construct_inverse_qft n] is the inverse of
    [construct_qft n] for every positive [n].  At [n = 1024] neither
    circuit exists. *)
Lemma construct_inverse_qft_1024_fails :
  construct_inverse_qft 1024 = Raise OverflowError
  /\ ~ (exists qft iqft, construct_qft 1024 = Ok qft
                         /\ construct_inverse_qft 1024 = Ok iqft).
Proof.
  assert (H : construct_inverse_qft 1024 = Raise OverflowError)
    by (apply construct_inverse_qft_overflow; lia).
  split; [exact H|]. intros (qft & iqft & _ & Hc). rewrite H in Hc.
  discriminate.
Qed.

(** C5, amended.  For positive [n <= 1023], [construct_inverse_qft n] is
    the gate-by-gate inverse of [construct_qft n]: the same gates with
    their angles negated, in reversed order.  Composing the forward
    circuit with the inverse one leaves every state of the register
    unchanged, in particular every basis state [ket n b] (exactly so over
    the reals, hence within any tolerance).  For [n >= 1024] both
    constructions raise the overflow error. *)
Theorem inverse_qft_round_trip (n : Z) :
  0 < n ->
  (n <= 1023 ->
   exists qft iqft both,
     construct_qft n = Ok qft /\
     construct_inverse_qft n = Ok iqft /\
     num_qubits iqft = n /\
     data iqft = rev (map Spec.negate_angle (data qft)) /\
     compose qft iqft = Ok both /\
     (forall psi, run (data both) psi = Some psi) /\
     (forall b, run (data both) (ket n b) = Some (ket n b)))
  /\ (1024 <= n ->
      construct_qft n = Raise OverflowError
      /\ construct_inverse_qft n = Raise OverflowError).
Proof.
  intros Hn. split.
  - intros Hmax.
    exists (Circuit n 0 (Spec.qft_gates (Z.to_nat n))),
           (Circuit n 0 (Spec.inverse_qft_gates (Z.to_nat n))),
           (Circuit n 0 (Spec.qft_gates (Z.to_nat n)
                         ++ Spec.inverse_qft_gates (Z.to_nat n))).
    rewrite construct_qft_spec, construct_inverse_qft_spec by lia.
    rewrite compose_ok by lia.
    repeat split; intros; apply run_undo, qft_gates_shape.
  - intros Hmin. split.
    + now apply construct_qft_overflow.
    + now apply construct_inverse_qft_overflow.
Qed.

Lemma inverse_qft_round_trip_2 :
  exists qft iqft both,
    construct_qft 2 = Ok qft /\
    construct_inverse_qft 2 = Ok iqft /\
    num_qubits iqft = 2 /\
    data iqft = rev (map Spec.negate_angle (data qft)) /\
    compose qft iqft = Ok both /\
    (forall psi, run (data both) psi = Some psi) /\
    (forall b, run (data both) (ket 2 b) = Some (ket 2 b)).
Proof.
  apply (proj1 (inverse_qft_round_trip 2 ltac:(lia))). lia.
Defined.

(** C6, as stated: every [n <= 0] is rejected by [construct_qft].  It is
    not: the width 0 is accepted and yields the empty circuit. *)
Lemma construct_qft_accepts_zero :
  ~ (forall n, n <= 0 -> exists e, construct_qft n = Raise e).
Proof.
  intros H. destruct (H 0) as [e He]; [lia|]. discriminate He.
Qed.

(** C6, amended.  The transform has no guard of its own.  For every
    [n < 0] both [construct_qft n] and [construct_inverse_qft n] fail,
    with the error of the circuit constructor, which refuses a register of
    negative size; for [n = 0] both return the empty circuit over no
    qubits. *)
Theorem construct_qft_nonpositive (n : Z) :
  n <= 0 ->
  (n < 0 -> construct_qft n = Raise CircuitError
            /\ construct_inverse_qft n = Raise CircuitError)
  /\ (n = 0 -> construct_qft n = Ok (Circuit 0 0 [])
               /\ construct_inverse_qft n = Ok (Circuit 0 0 [])).
Proof.
  intros _. split.
  - intros Hn. unfold construct_inverse_qft, construct_qft, new_circuit.
    replace (n <? 0) with true by (symmetry; apply Z.ltb_lt; lia).
    split; reflexivity.
  - intros ->. split; reflexivity.
Qed.

Lemma construct_qft_minus_one :
  construct_qft (-1) = Raise CircuitError
  /\ construct_inverse_qft (-1) = Raise CircuitError.
Proof. apply (construct_qft_nonpositive (-1)); lia. Defined.

(** C7, on a circuit with one controlled swap: the transformer expands it
    one level and copies the three-qubit gate [ccx] of its definition
    into the output, which therefore is not made of basis gates only. *)
Theorem transform_circuit_keeps_ccx :
  transform_circuit Collaborators.zyz_angles Collaborators.decompose
    cswap_circuit = Ok cswap_transformed
  /\ ~ List.Forall basis_named (data cswap_transformed).
Proof.
  split; [reflexivity|].
  intros H. apply List.Forall_inv_tail, List.Forall_inv in H.
  assert (Hf : bool_decide
            (basis_named (Instruction (Opaque "ccx" 3) [0; 1; 2] []))
          = false) by reflexivity.
  apply bool_decide_eq_false in Hf. exact (Hf H).
Qed.

(** C8, on the phase gate of angle 0 (the identity): the Euler triple is
    [(0, 0, 0)], the five gates are emitted in the order rz(phi), sx,
    rz(theta), sx, rz(lambda), and together they act as a bit flip, which
    is not the identity up to a global phase. *)
Theorem decompose_phase_zero_flips :
  _decompose_single_qubit_gate Collaborators.zyz_angles (PhaseGate 0) 0
  = Ok (zsx_sequence 0 (0 / 2) (0 / 2) 0)
  /\ (forall psi,
        run (as_instructions (zsx_sequence 0 (0 / 2) (0 / 2) 0)) psi
        = run [Instruction XGate [0] []] psi)
  /\ ~ same_up_to_phase [Instruction (PhaseGate 0) [0] []]
         (as_instructions (zsx_sequence 0 (0 / 2) (0 / 2) 0)).
Proof.
  split; [|split].
  - apply decompose_single_of_angles, zyz_angles_phase_zero.
  - apply zsx_zero_is_bit_flip.
  - intros (c & Hc & H).
    specialize (H (ket 1 (fun _ => false))).
    rewrite zsx_zero_is_bit_flip in H. simpl in H.
    injection H as H.
    apply (f_equal (fun s : state => s (fun _ => false))) in H.
    unfold apply1, ket, diag, upd in H. simpl in H.
    destruct c as [cr ci]. unfold Cnorm2 in Hc. simpl in Hc.
    unfold Cmul, Cadd, Cexp, C0, C1 in H. simpl in H.
    injection H as Hr Hi. nra.
Qed.

(** C9, on the transformed controlled swap: the counts cover the two [cx]
    gates only, so they add up to 2 while the circuit has 3
    instructions. *)
Theorem gate_counts_miss_ccx :
  transform_circuit Collaborators.zyz_angles Collaborators.decompose
    cswap_circuit = Ok cswap_transformed
  /\ get_gate_counts cswap_transformed !! "cx" = Some 2
  /\ get_gate_counts cswap_transformed !! "ccx" = None
  /\ total_count (get_gate_counts cswap_transformed) = 2
  /\ Z.of_nat (length (data cswap_transformed)) = 3.
Proof.
  split; [reflexivity|]. split.
  { rewrite get_gate_counts_lookup. reflexivity. }
  split.
  { rewrite get_gate_counts_lookup. reflexivity. }
  split; [|reflexivity].
  rewrite get_gate_counts_total. reflexivity.
Qed.

(** C10.  [quantum_sum 0 0] does not raise: the width is 0 and the result
    is the circuit with no qubits, no classical bits and no gates. *)
Theorem quantum_sum_zero :
  quantum_sum 0 0 = Ok (Circuit 0 0 [], 0).
Proof. reflexivity. Qed.

End Claims.

(** * Further properties of the code *)

(** ** Phase angles *)

Section PhaseAngles.
Import Qiskit DraperAdder.

Lemma sum_app (l1 l2 : list R) :
  fold_right Rplus 0%R (l1 ++ l2)
  = (fold_right Rplus 0 l1 + fold_right Rplus 0 l2)%R.
Proof.
  induction l1 as [|x l1 IH]; simpl; [ring|]. rewrite IH. ring.
Qed.

Lemma mod_pow2_succ (b : Z) (k : nat) :
  b mod 2 ^ Z.of_nat (S k)
  = b mod 2 ^ Z.of_nat k
    + (if Z.testbit b (Z.of_nat k) then 2 ^ Z.of_nat k else 0).
Proof.
  rewrite Nat2Z.inj_succ, Z.pow_succ_r by lia.
  rewrite (Z.mul_comm 2), Z.rem_mul_r by lia.
  f_equal. rewrite <- Z.testbit_spec' by lia.
  destruct (Z.testbit b (Z.of_nat k)); simpl; lia.
Qed.

(** The terms of bits below [k] add up to the low [k] bits of the operand,
    scaled to the turn. *)
Lemma phase_terms_sum (b : Z) (i k : nat) :
  (k <= i + 1)%nat ->
  fold_right Rplus 0%R
    (map (fun j => (2 * PI / 2 ^ (i - j + 1))%R)
       (List.filter (fun j => Z.testbit b (Z.of_nat j)) (seq 0 k)))
  = (2 * PI * IZR (b mod 2 ^ Z.of_nat k) / 2 ^ (i + 1))%R.
Proof.
  induction k as [|k IH]; intros Hk.
  - simpl. rewrite Z.mod_1_r. unfold Rdiv. ring.
  - rewrite seq_S, List.filter_app, map_app, sum_app, IH by lia.
    rewrite mod_pow2_succ, plus_IZR. simpl.
    destruct (Z.testbit b (Z.of_nat k)); simpl.
    + rewrite <- pow_IZR.
      assert (E : (2 ^ (i + 1) = 2 ^ (i - k + 1) * 2 ^ k)%R).
      { rewrite <- pow_add. f_equal. lia. }
      rewrite E. simpl. field.
      split; apply pow_nonzero; lra.
    + unfold Rdiv. ring.
Qed.

Lemma phase_angle_closed (b : Z) (i : nat) :
  Spec.phase_angle b i
  = (2 * PI * IZR (b mod 2 ^ Z.of_nat (i + 1)) / 2 ^ (i + 1))%R.
Proof. unfold Spec.phase_angle. now apply phase_terms_sum. Qed.

Lemma phase_angle_at (b n i : Z) :
  0 <= i < n ->
  getitem (map (angle_loop b) (range n)) i
  = Ok (Spec.phase_angle b (Z.to_nat i)).
Proof.
  intros Hi. rewrite getitem_map_range by assumption.
  rewrite <- angle_loop_spec, Z2Nat.id by lia. reflexivity.
Qed.

Lemma phase_angle_turns (b i : Z) :
  0 <= i ->
  Spec.phase_angle b (Z.to_nat i)
  = (2 * PI * IZR (b mod 2 ^ (i + 1)) / IZR (2 ^ (i + 1)))%R.
Proof.
  intros Hi. rewrite phase_angle_closed.
  assert (E : i + 1 = Z.of_nat (Z.to_nat i + 1)) by lia.
  rewrite E at 2. rewrite <- pow_IZR. now rewrite <- E.
Qed.

(** X1.  Up to 1023 qubits, [_binary_to_phase_angles b n] returns [n]
    angles, and entry [i] is the fraction [(b mod 2^(i+1)) / 2^(i+1)] of a
    full turn: the angle only reads the low [i+1] bits of the operand.
    (The float sum is idealised as the real sum.) *)
Theorem binary_to_phase_angles_turns (b n i : Z) :
  0 <= i < n -> n <= 1023 ->
  exists angles,
    _binary_to_phase_angles b n = Ok angles
    /\ length angles = Z.to_nat n
    /\ getitem angles i
       = Ok (2 * PI * IZR (b mod 2 ^ (i + 1)) / IZR (2 ^ (i + 1)))%R.
Proof.
  intros Hi Hn. eexists.
  split; [now apply binary_to_phase_angles_map|]. split.
  - rewrite length_map. unfold range, range2.
    rewrite length_map, length_seq. f_equal. lia.
  - rewrite phase_angle_at by assumption. f_equal.
    apply phase_angle_turns. lia.
Qed.

Lemma binary_to_phase_angles_turns_5_3_1 :
  exists angles,
    _binary_to_phase_angles 5 3 = Ok angles
    /\ length angles = 3%nat
    /\ getitem angles 1
       = Ok (2 * PI * IZR (5 mod 2 ^ (1 + 1)) / IZR (2 ^ (1 + 1)))%R.
Proof. apply (binary_to_phase_angles_turns 5 3 1); lia. Defined.

(** X2.  Whatever the operand and the width, every angle that
    [_binary_to_phase_angles] returns lies between 0 and a full turn.
    (Over the reals a full turn is not reached; the float sum can round up
    to [2 pi] itself, which is why the bound is stated closed.) *)
Theorem binary_to_phase_angles_range (b n : Z) (angles : list R) :
  _binary_to_phase_angles b n = Ok angles ->
  List.Forall (fun t => 0 <= t <= 2 * PI)%R angles.
Proof.
  intros H. apply binary_to_phase_angles_returned in H. subst angles.
  apply List.Forall_forall.
  intros t Ht. apply in_map_iff in Ht as (i & <- & Hi).
  apply in_range in Hi.
  replace i with (Z.of_nat (Z.to_nat i)) by lia.
  rewrite angle_loop_spec, phase_angle_turns by lia.
  pose proof PI_RGT_0 as Hpi.
  pose proof (Z.mod_pos_bound b (2 ^ (i + 1))) as Hm.
  assert (Hp : 0 < 2 ^ (i + 1)) by (apply Z.pow_pos_nonneg; lia).
  specialize (Hm Hp).
  assert (H0 : (0 <= IZR (b mod 2 ^ (i + 1)))%R) by (apply IZR_le; lia).
  assert (H1 : (IZR (b mod 2 ^ (i + 1)) < IZR (2 ^ (i + 1)))%R)
    by (apply IZR_lt; lia).
  assert (H2 : (0 < IZR (2 ^ (i + 1)))%R) by (apply IZR_lt; lia).
  split.
  - apply Rmult_le_pos; [|left; now apply Rinv_0_lt_compat].
    apply Rmult_le_pos; [lra | assumption].
  - left. apply (Rmult_lt_reg_r (IZR (2 ^ (i + 1)))); [assumption|].
    unfold Rdiv. rewrite Rmult_assoc, Rinv_l by lra. nra.
Qed.

Lemma binary_to_phase_angles_range_5_3 :
  exists angles,
    _binary_to_phase_angles 5 3 = Ok angles
    /\ List.Forall (fun t => 0 <= t <= 2 * PI)%R angles.
Proof.
  eexists. split; [reflexivity|].
  apply (binary_to_phase_angles_range 5 3). reflexivity.
Defined.

(** X3.  Over the reals that idealise the floats, the angles add like the
    operands: up to 1023 qubits, at every qubit the angle of [a] plus the
    angle of [b] is the angle of [a + b], up to one full turn, so the two
    rotations in a row are the rotation of the sum. *)
Theorem binary_to_phase_angles_add (a b n i : Z) :
  0 <= i < n -> n <= 1023 ->
  exists la lb lab ta tb tab k,
    _binary_to_phase_angles a n = Ok la /\
    _binary_to_phase_angles b n = Ok lb /\
    _binary_to_phase_angles (a + b) n = Ok lab /\
    getitem la i = Ok ta /\
    getitem lb i = Ok tb /\
    getitem lab i = Ok tab /\
    (k = 0 \/ k = 1) /\
    (ta + tb = tab + 2 * PI * IZR k)%R /\
    Semantics.Cmul (Semantics.Cexp ta) (Semantics.Cexp tb)
    = Semantics.Cexp tab.
Proof.
  intros Hi Hn.
  set (M := 2 ^ (i + 1)).
  assert (HM : 0 < M) by (apply Z.pow_pos_nonneg; lia).
  pose proof (Z.mod_pos_bound a M HM) as Ha.
  pose proof (Z.mod_pos_bound b M HM) as Hb.
  set (k := (a mod M + b mod M) / M).
  assert (Hsum : a mod M + b mod M = (a + b) mod M + M * k).
  { unfold k. rewrite (Z.add_mod a b M) by lia.
    pose proof (Z.div_mod (a mod M + b mod M) M). lia. }
  assert (Hk : k = 0 \/ k = 1).
  { pose proof (Z.mod_pos_bound (a + b) M HM). nia. }
  assert (HMR : (0 < IZR M)%R) by (apply IZR_lt; lia).
  assert (Hturn :
    (2 * PI * IZR (a mod M) / IZR M + 2 * PI * IZR (b mod M) / IZR M
     = 2 * PI * IZR ((a + b) mod M) / IZR M + 2 * PI * IZR k)%R).
  { apply (f_equal IZR) in Hsum.
    rewrite !plus_IZR, mult_IZR in Hsum.
    replace (IZR (a mod M)) with
      (IZR ((a + b) mod M) + IZR M * IZR k - IZR (b mod M))%R by lra.
    field. lra. }
  exists (map (angle_loop a) (range n)), (map (angle_loop b) (range n)),
         (map (angle_loop (a + b)) (range n)),
         (2 * PI * IZR (a mod M) / IZR M)%R,
         (2 * PI * IZR (b mod M) / IZR M)%R,
         (2 * PI * IZR ((a + b) mod M) / IZR M)%R, k.
  rewrite !binary_to_phase_angles_map by assumption.
  rewrite !phase_angle_at by assumption.
  rewrite !phase_angle_turns by lia. fold M.
  repeat split; try assumption.
  rewrite Cexp_add, Hturn. unfold Semantics.Cexp.
  destruct Hk as [-> | ->].
  - f_equal; f_equal; lra.
  - replace (2 * PI * 1)%R with (2 * INR 1 * PI)%R by (simpl; ring).
    now rewrite cos_period, sin_period.
Qed.

Lemma binary_to_phase_angles_add_3_5 :
  exists la lb lab ta tb tab k,
    _binary_to_phase_angles 3 4 = Ok la /\
    _binary_to_phase_angles 5 4 = Ok lb /\
    _binary_to_phase_angles (3 + 5) 4 = Ok lab /\
    getitem la 2 = Ok ta /\
    getitem lb 2 = Ok tb /\
    getitem lab 2 = Ok tab /\
    (k = 0 \/ k = 1) /\
    (ta + tb = tab + 2 * PI * IZR k)%R /\
    Semantics.Cmul (Semantics.Cexp ta) (Semantics.Cexp tb)
    = Semantics.Cexp tab.
Proof. apply (binary_to_phase_angles_add 3 5 4 2); lia. Defined.

End PhaseAngles.

(** ** Operands and sizes of the adder *)

Section AdderOperands.
Import Qiskit QuantumFourierTransform DraperAdder.

Lemma flips_low_bits (a : Z) (n : nat) :
  Spec.flips (a mod 2 ^ Z.of_nat n) n = Spec.flips a n.
Proof.
  unfold Spec.flips. f_equal. apply List.filter_ext_in.
  intros i Hi. apply in_seq in Hi.
  apply Z.mod_pow2_bits_low. lia.
Qed.

Lemma phase_angle_low_bits (b : Z) (n i : nat) :
  (i < n)%nat ->
  Spec.phase_angle (b mod 2 ^ Z.of_nat n) i = Spec.phase_angle b i.
Proof.
  intros Hi. unfold Spec.phase_angle. do 2 f_equal.
  apply List.filter_ext_in. intros j Hj. apply in_seq in Hj.
  apply Z.mod_pow2_bits_low. lia.
Qed.

Lemma rotations_low_bits (b : Z) (n : nat) :
  Spec.rotations (b mod 2 ^ Z.of_nat n) n = Spec.rotations b n.
Proof.
  unfold Spec.rotations. apply map_ext_in. intros i Hi.
  apply in_seq in Hi. now rewrite phase_angle_low_bits by lia.
Qed.

(** X4.  Above the guard nothing is checked: an operand below [2^n], also a
    negative one, is read through its low [n] bits only, so the circuit is
    the one of the operands reduced modulo [2^n]. *)
Theorem construct_adder_low_bits (a b n : Z) :
  0 <= n -> a < 2 ^ n -> b < 2 ^ n ->
  construct_adder a b n = construct_adder (a mod 2 ^ n) (b mod 2 ^ n) n.
Proof.
  intros Hn Ha Hb.
  assert (Hp : 0 < 2 ^ n) by (apply Z.pow_pos_nonneg; lia).
  destruct (Z.le_gt_cases n 1023) as [Hmax|Hmin].
  - rewrite (construct_adder_spec a b) by (assumption || lia).
    rewrite (construct_adder_spec (a mod 2 ^ n) (b mod 2 ^ n))
      by (try apply Z.mod_pos_bound; assumption || lia).
    unfold Spec.adder_gates.
    replace (2 ^ n) with (2 ^ Z.of_nat (Z.to_nat n)) by (f_equal; lia).
    now rewrite flips_low_bits, rotations_low_bits.
  - rewrite (construct_adder_overflow a b) by (assumption || lia).
    rewrite (construct_adder_overflow (a mod 2 ^ n) (b mod 2 ^ n))
      by (try apply Z.mod_pos_bound; assumption || lia).
    reflexivity.
Qed.

Lemma construct_adder_low_bits_negative :
  construct_adder (-1) (-3) 2
  = construct_adder ((-1) mod 2 ^ 2) ((-3) mod 2 ^ 2) 2.
Proof. apply (construct_adder_low_bits (-1) (-3) 2); lia. Defined.

Lemma bit_length_fits_any (x : Z) : Spec.fits x (bit_length x).
Proof.
  destruct (Z.lt_ge_cases x 0) as [Hneg|Hpos].
  - unfold Spec.fits. pose proof (bit_length_nonneg x).
    pose proof (Z.pow_pos_nonneg 2 (bit_length x)). lia.
  - now apply bit_length_fits.
Qed.

(** X5.  Inside [quantum_sum] the guard of [construct_adder] cannot fire,
    whatever the signs of the operands, because the width it picks is at
    least every bit length.  So [quantum_sum] returns a circuit of that
    width on both registers when the width is at most 1023, ends in the
    overflow of the angle computation when it is larger, and never raises
    the range error. *)
Theorem quantum_sum_outcome (a b : Z) :
  (chosen_width a b <= 1023 ->
   exists circuit,
     quantum_sum a b = Ok (circuit, chosen_width a b) /\
     num_qubits circuit = chosen_width a b /\
     num_clbits circuit = chosen_width a b)
  /\ (1024 <= chosen_width a b -> quantum_sum a b = Raise OverflowError)
  /\ quantum_sum a b <> Raise ValueError.
Proof.
  pose proof (bit_length_nonneg a). pose proof (bit_length_nonneg b).
  pose proof (bit_length_nonneg (a + b)).
  assert (Hn : 0 <= chosen_width a b) by (unfold chosen_width; lia).
  assert (Fa : Spec.fits a (chosen_width a b)).
  { apply (fits_mono a (bit_length a));
      [unfold chosen_width; lia | apply bit_length_fits_any]. }
  assert (Fb : Spec.fits b (chosen_width a b)).
  { apply (fits_mono b (bit_length b));
      [unfold chosen_width; lia | apply bit_length_fits_any]. }
  assert (Hok : chosen_width a b <= 1023 ->
            quantum_sum a b
            = Ok (Circuit (chosen_width a b) (chosen_width a b)
                    (Spec.adder_gates a b (Z.to_nat (chosen_width a b))),
                  chosen_width a b)).
  { intros Hmax. unfold quantum_sum. fold (chosen_width a b).
    now rewrite construct_adder_spec by (assumption || lia). }
  assert (Hover : 1024 <= chosen_width a b ->
            quantum_sum a b = Raise OverflowError).
  { intros Hmin. unfold quantum_sum. fold (chosen_width a b).
    now rewrite construct_adder_overflow. }
  split; [|split].
  - intros Hmax. eexists. split; [now apply Hok|]. split; reflexivity.
  - exact Hover.
  - destruct (Z.le_gt_cases (chosen_width a b) 1023) as [Hmax|Hmin].
    + rewrite Hok by assumption. discriminate.
    + rewrite Hover by lia. discriminate.
Qed.

Lemma qft_rounds_length (n k s : nat) :
  (s + k = n)%nat ->
  (2 * length (flat_map (fun i =>
        Spec.on HGate [i]
        :: map (fun j =>
             Spec.on (CPhaseGate (2 * PI / 2 ^ (j - i + 1))%R) [j; i])
             (seq (i + 1) (n - (i + 1)))) (seq s k))
   = k * (k + 1))%nat.
Proof.
  revert s. induction k as [|k IH]; intros s Hs; [reflexivity|].
  cbn [seq flat_map]. rewrite length_app. cbn [length].
  rewrite length_map, length_seq.
  specialize (IH (S s) ltac:(lia)). nia.
Qed.

Lemma qft_gates_length (n : nat) :
  Z.of_nat (length (Spec.qft_gates n)) = qft_size (Z.of_nat n).
Proof.
  unfold Spec.qft_gates, qft_size.
  rewrite length_app, length_map, length_seq.
  pose proof (qft_rounds_length n n 0 eq_refl) as H.
  rewrite Nat2Z.inj_add, Nat2Z.inj_div. f_equal.
  apply Z.div_unique_exact; [lia|]. nia.
Qed.

(** X6.  A Fourier circuit on [0 <= n <= 1023] qubits has
    [n (n+1) / 2 + n / 2] gates (one Hadamard per qubit, one controlled
    phase per pair, one swap per mirrored pair), and its inverse has as
    many. *)
Theorem construct_qft_size (n : Z) :
  0 <= n <= 1023 ->
  exists qft iqft,
    construct_qft n = Ok qft /\
    construct_inverse_qft n = Ok iqft /\
    Z.of_nat (length (data qft)) = qft_size n /\
    Z.of_nat (length (data iqft)) = qft_size n.
Proof.
  intros Hn. do 2 eexists.
  rewrite construct_qft_spec, construct_inverse_qft_spec by assumption.
  repeat split; simpl.
  - rewrite qft_gates_length. f_equal. lia.
  - unfold Spec.inverse_qft_gates.
    rewrite length_rev, length_map, qft_gates_length. f_equal. lia.
Qed.

Lemma construct_qft_size_4 :
  exists qft iqft,
    construct_qft 4 = Ok qft /\
    construct_inverse_qft 4 = Ok iqft /\
    Z.of_nat (length (data qft)) = qft_size 4 /\
    Z.of_nat (length (data iqft)) = qft_size 4.
Proof. apply (construct_qft_size 4). lia. Defined.

(** X7.  Up to 1023 qubits, the adder of operands below [2^n] has one X
    per bit set in [a], two Fourier circuits, [n] phase rotations and [n]
    measurements. *)
Theorem construct_adder_size (a b n : Z) :
  0 <= n <= 1023 -> a < 2 ^ n -> b < 2 ^ n ->
  exists circuit,
    construct_adder a b n = Ok circuit /\
    Z.of_nat (length (data circuit))
    = popcount a (Z.to_nat n) + 2 * qft_size n + 2 * n.
Proof.
  intros Hn Ha Hb. eexists. split; [now apply construct_adder_spec|].
  simpl. unfold Spec.adder_gates, Spec.flips, Spec.rotations,
    Spec.measurements, Spec.inverse_qft_gates, popcount.
  rewrite !length_app, !length_map, length_rev, length_map, !length_seq.
  rewrite !Nat2Z.inj_add, qft_gates_length, Z2Nat.id by lia.
  lia.
Qed.

Lemma construct_adder_size_3_5 :
  exists circuit,
    construct_adder 3 5 4 = Ok circuit /\
    Z.of_nat (length (data circuit))
    = popcount 3 (Z.to_nat 4) + 2 * qft_size 4 + 2 * 4.
Proof. apply (construct_adder_size 3 5 4); lia. Defined.

Lemma negate_angle_involutive (i : instruction) :
  qft_gate i -> Spec.negate_angle (Spec.negate_angle i) = i.
Proof.
  intros []; unfold Spec.negate_angle; simpl; try reflexivity.
  now rewrite Ropp_involutive.
Qed.

Lemma negate_angle_qft_gate (i : instruction) :
  qft_gate i -> qft_gate (Spec.negate_angle i).
Proof. intros []; constructor. Qed.

(** X8.  Up to 1023 qubits, the inverse transform is returned, and
    inverting it gives back the forward transform. *)
Theorem inverse_of_inverse_qft (n : Z) :
  0 <= n <= 1023 ->
  exists iqft,
    construct_inverse_qft n = Ok iqft /\
    inverse iqft = construct_qft n.
Proof.
  intros Hn. eexists. split; [now apply construct_inverse_qft_spec|].
  rewrite construct_qft_spec by assumption.
  unfold Spec.inverse_qft_gates.
  pose proof (qft_gates_shape (Z.to_nat n)) as Hs.
  rewrite inverse_qft_gates.
  - rewrite map_rev, rev_involutive, map_map. do 2 f_equal.
    rewrite <- (map_id (Spec.qft_gates (Z.to_nat n))) at 2.
    apply map_ext_in. intros i Hi. apply negate_angle_involutive.
    rewrite List.Forall_forall in Hs. now apply Hs.
  - apply List.Forall_rev, List.Forall_map.
    eapply List.Forall_impl; [|exact Hs].
    intros i. apply negate_angle_qft_gate.
Qed.

Lemma inverse_of_inverse_qft_3 :
  exists iqft,
    construct_inverse_qft 3 = Ok iqft /\
    inverse iqft = construct_qft 3.
Proof. apply (inverse_of_inverse_qft 3). lia. Defined.

End AdderOperands.

(** ** Well-formed circuits *)

Section WellFormed.
Import Qiskit QuantumFourierTransform DraperAdder GateBasisTransformer.

Lemma bit_index_range (size i k : Z) :
  bit_index size i = Ok k -> 0 <= k < size.
Proof.
  unfold bit_index.
  destruct ((0 <=? i) && (i <? size)) eqn:H1.
  - intros [= <-]. apply andb_true_iff in H1 as [H0 H2].
    apply Z.leb_le in H0. apply Z.ltb_lt in H2. lia.
  - destruct ((- size <=? i) && (i <? 0)) eqn:H2; [|discriminate].
    intros [= <-]. apply andb_true_iff in H2 as [H0 H3].
    apply Z.leb_le in H0. apply Z.ltb_lt in H3. lia.
Qed.

Lemma map_result_bit_index_range (size : Z) (l l' : list Z) :
  map_result (bit_index size) l = Ok l' ->
  List.Forall (fun k => 0 <= k < size) l'.
Proof.
  revert l'. induction l as [|i l IH]; intros l' H; simpl in H.
  - injection H as <-. constructor.
  - apply bind_Ok in H as (k & Hk & H).
    apply bind_Ok in H as (ks & Hks & H). injection H as <-.
    constructor; [now apply (bit_index_range size i) | now apply IH].
Qed.

Lemma append_instruction (c c' : QuantumCircuit) (g : gate)
    (qs cs : list Z) :
  append c g qs cs = Ok c' ->
  exists i, c' = push c i /\ operation i = g
            /\ instruction_ok (num_qubits c) (num_clbits c) i.
Proof.
  unfold append. intros H.
  apply bind_Ok in H as (qs' & Hqs & H).
  apply bind_Ok in H as (cs' & Hcs & H).
  destruct (measures g && _); [discriminate|].
  destruct ((length qs' =? gate_num_qubits g)%nat
            && (length cs' =? gate_num_clbits g)%nat) eqn:Har;
    [|discriminate].
  destruct (has_duplicates qs') eqn:Hd; [discriminate|].
  simpl in H. injection H as <-.
  apply andb_true_iff in Har as [Hq Hc].
  apply Nat.eqb_eq in Hq. apply Nat.eqb_eq in Hc.
  exists (Instruction g qs' cs'). repeat split; simpl; try assumption.
  - now apply (map_result_bit_index_range _ qs).
  - now apply (map_result_bit_index_range _ cs).
Qed.

Lemma append_shaped (n m : Z) (c c' : QuantumCircuit) (g : gate)
    (qs cs : list Z) :
  shaped n m c -> append c g qs cs = Ok c' -> shaped n m c'.
Proof.
  intros (Hn & Hm & Hwf) H.
  apply append_instruction in H as (i & -> & _ & Hi).
  repeat split; try assumption.
  unfold well_formed. simpl. apply List.Forall_app. split; [exact Hwf|].
  constructor; [exact Hi | constructor].
Qed.

Lemma for_in_shaped {A : Type} (n m : Z) (l : list A)
    (body : QuantumCircuit -> A -> result QuantumCircuit) :
  (forall c x c', In x l -> shaped n m c -> body c x = Ok c' ->
                  shaped n m c') ->
  forall c c', shaped n m c -> for_in l c body = Ok c' -> shaped n m c'.
Proof. apply for_in_invariant. Qed.

Lemma new_circuit_shaped (n m : Z) (c : QuantumCircuit) :
  new_circuit n m = Ok c -> shaped n m c /\ 0 <= n /\ 0 <= m /\ data c = [].
Proof.
  unfold new_circuit. destruct ((n <? 0) || (m <? 0)) eqn:H; [discriminate|].
  intros [= <-]. apply orb_false_iff in H as [H1 H2].
  apply Z.ltb_ge in H1. apply Z.ltb_ge in H2.
  repeat split; try assumption. constructor.
Qed.

Lemma construct_qft_shaped (n : Z) (c : QuantumCircuit) :
  construct_qft n = Ok c -> shaped n 0 c.
Proof.
  unfold construct_qft. intros H.
  apply bind_Ok in H as (c0 & H0 & H).
  apply bind_Ok in H as (c1 & H1 & H).
  apply bind_Ok in H as (c2 & H2 & H). injection H as <-.
  apply new_circuit_shaped in H0 as (H0 & _).
  refine (for_in_shaped n 0 _ _ _ c1 c2 _ H2).
  { intros s i s' _ Hs. apply append_shaped, Hs. }
  refine (for_in_shaped n 0 _ _ _ c0 c1 H0 H1).
  intros s i s' _ Hs Hb.
  apply bind_Ok in Hb as (s1 & Hh & Hb).
  refine (for_in_shaped n 0 _ _ _ s1 s' _ Hb).
  - intros t j t' _ Ht Hcp. unfold _create_cphase_gate in Hcp.
    apply bind_Ok in Hcp as (angle & _ & Hcp).
    eapply append_shaped; eauto.
  - eapply append_shaped; eauto.
Qed.

Lemma inverse_gate_arity (g g' : gate) :
  inverse_gate g = Ok g' ->
  gate_num_qubits g' = gate_num_qubits g
  /\ gate_num_clbits g' = gate_num_clbits g.
Proof. destruct g; intros [= <-]; split; reflexivity. Qed.

Lemma inverse_shaped (n m : Z) (c c' : QuantumCircuit) :
  shaped n m c -> inverse c = Ok c' -> shaped n m c'.
Proof.
  intros (Hn & Hm & Hwf) H. unfold inverse in H.
  apply bind_Ok in H as (l & Hl & H). injection H as <-.
  repeat split; try assumption.
  unfold well_formed in *. simpl. rewrite Hn, Hm in *.
  apply List.Forall_rev in Hwf. revert l Hl.
  induction Hwf as [|i r Hi Hr IH]; intros l Hl; simpl in Hl.
  - injection Hl as <-. constructor.
  - apply bind_Ok in Hl as (i' & Hi' & Hl).
    apply bind_Ok in Hl as (r' & Hr' & Hl). injection Hl as <-.
    constructor; [|now apply IH].
    unfold inverse_instruction in Hi'.
    apply bind_Ok in Hi' as (g' & Hg & Hi'). injection Hi' as <-.
    apply inverse_gate_arity in Hg as [Hq Hc].
    destruct Hi as (H1 & H2 & H3 & H4 & H5).
    repeat split; simpl; try assumption; congruence.
Qed.

Lemma instruction_ok_mono (n m n' m' : Z) (i : instruction) :
  n <= n' -> m <= m' -> instruction_ok n m i -> instruction_ok n' m' i.
Proof.
  intros Hn Hm (H1 & H2 & H3 & H4 & H5).
  repeat split; try assumption.
  - eapply List.Forall_impl; [|exact H1]. simpl. intros; lia.
  - eapply List.Forall_impl; [|exact H2]. simpl. intros; lia.
Qed.

Lemma compose_shaped (n m n' m' : Z) (c o c' : QuantumCircuit) :
  shaped n m c -> shaped n' m' o -> compose c o = Ok c' -> shaped n m c'.
Proof.
  intros (Hn & Hm & Hwf) (Hn' & Hm' & Hwf') H. unfold compose in H.
  destruct ((num_qubits c <? num_qubits o)
            || (num_clbits c <? num_clbits o)) eqn:Hlt; [discriminate|].
  injection H as <-. apply orb_false_iff in Hlt as [H1 H2].
  apply Z.ltb_ge in H1. apply Z.ltb_ge in H2.
  repeat split; try assumption.
  unfold well_formed in *. simpl. apply List.Forall_app. split; [exact Hwf|].
  eapply List.Forall_impl; [|exact Hwf'].
  intros i. now apply instruction_ok_mono.
Qed.

Lemma measure_shaped (n m : Z) (c c' : QuantumCircuit) (qs cs : list Z) :
  shaped n m c -> measure c qs cs = Ok c' -> shaped n m c'.
Proof.
  intros Hc H. unfold measure in H.
  apply bind_Ok in H as (qs' & _ & H).
  apply bind_Ok in H as (cs' & _ & H).
  destruct (length qs' =? length cs')%nat.
  - refine (for_in_shaped n m _ _ _ c c' Hc H).
    intros s x s' _ Hs. apply append_shaped, Hs.
  - destruct ((length qs' =? 1)%nat && negb (length cs' =? 0)%nat);
      [|discriminate].
    refine (for_in_shaped n m _ _ _ c c' Hc H).
    intros s x s' _ Hs. apply append_shaped, Hs.
Qed.

Lemma construct_adder_shaped (a b n : Z) (c : QuantumCircuit) :
  construct_adder a b n = Ok c -> shaped n n c.
Proof.
  unfold construct_adder. destruct (ge_pow2 a n || ge_pow2 b n);
    [discriminate|].
  intros H.
  apply bind_Ok in H as (c0 & H0 & H).
  apply bind_Ok in H as (c1 & H1 & H).
  apply bind_Ok in H as (q & Hq & H).
  apply bind_Ok in H as (c2 & H2 & H).
  apply bind_Ok in H as (angles & Hangles & H).
  apply bind_Ok in H as (c3 & H3 & H).
  apply bind_Ok in H as (iq & Hiq & H).
  apply bind_Ok in H as (c4 & H4 & H).
  apply bind_Ok in H as (c5 & H5 & H). injection H as <-.
  apply new_circuit_shaped in H0 as (H0 & _).
  assert (S1 : shaped n n c1).
  { refine (for_in_shaped n n _ _ _ c0 c1 H0 H1).
    intros s i s' _ Hs.
    destruct (negb (Z.land a (Z.shiftl 1 i) =? 0)).
    - apply append_shaped, Hs.
    - now intros [= <-]. }
  assert (Sq : shaped n 0 q) by now apply construct_qft_shaped.
  assert (S2 : shaped n n c2) by (eapply compose_shaped; eauto).
  assert (S3 : shaped n n c3).
  { refine (for_in_shaped n n _ _ _ c2 c3 S2 H3).
    intros s i s' _ Hs Hb. apply bind_Ok in Hb as (t & _ & Hb).
    eapply append_shaped; eauto. }
  assert (Siq : shaped n 0 iq).
  { unfold construct_inverse_qft in Hiq.
    apply bind_Ok in Hiq as (q' & Hq' & Hiq).
    apply (inverse_shaped n 0 q' iq); [|exact Hiq].
    now apply construct_qft_shaped. }
  assert (S4 : shaped n n c4) by (eapply compose_shaped; eauto).
  eapply measure_shaped; eauto.
Qed.

(** X9.  Up to 1023 qubits, the adder circuit for operands below [2^n] is
    returned and is well-formed: every instruction addresses qubits and
    classical bits inside the [n]-bit registers, takes as many of them as
    its operator has, and names no qubit twice. *)
Theorem construct_adder_well_formed (a b n : Z) :
  0 <= n <= 1023 -> a < 2 ^ n -> b < 2 ^ n ->
  exists circuit,
    construct_adder a b n = Ok circuit /\
    num_qubits circuit = n /\ num_clbits circuit = n /\
    well_formed circuit.
Proof.
  intros Hn Ha Hb. eexists. split; [now apply construct_adder_spec|].
  apply (construct_adder_shaped a b n). now apply construct_adder_spec.
Qed.

Lemma construct_adder_well_formed_3_5 :
  exists circuit,
    construct_adder 3 5 4 = Ok circuit /\
    num_qubits circuit = 4 /\ num_clbits circuit = 4 /\
    well_formed circuit.
Proof. apply (construct_adder_well_formed 3 5 4); lia. Defined.

End WellFormed.

(** ** The transformer, one instruction after the other *)

Section TransformerShape.
Import Qiskit GateBasisTransformer.

Variable angles : gate -> result (R * R * R).
Variable decompose : QuantumCircuit -> result QuantumCircuit.

Lemma append_all_shaped (n m : Z) (c c' : QuantumCircuit)
    (gates : list (gate * list Z)) :
  shaped n m c -> append_all c gates = Ok c' -> shaped n m c'.
Proof.
  intros Hc H. refine (for_in_shaped n m _ _ _ c c' Hc H).
  intros s gq s' _ Hs. apply append_shaped, Hs.
Qed.

Lemma transform_node_shaped (n m : Z) (c c' : QuantumCircuit)
    (node : instruction) :
  shaped n m c ->
  transform_node angles decompose c node = Ok c' ->
  shaped n m c'.
Proof.
  intros Hc. unfold transform_node.
  destruct (String.eqb (name (operation node)) "measure").
  { now intros [= <-]. }
  destruct (bool_decide (lower (name (operation node)) ∈ basis_gates)).
  { apply append_shaped, Hc. }
  destruct (length (qubits node) =? 1)%nat.
  { intros H. apply bind_Ok in H as (q0 & _ & H).
    apply bind_Ok in H as (l & _ & H).
    eapply append_all_shaped; eauto. }
  destruct (String.eqb (name (operation node)) "cx").
  { apply append_shaped, Hc. }
  intros H. apply bind_Ok in H as (t0 & _ & H).
  apply bind_Ok in H as (t1 & _ & H).
  apply bind_Ok in H as (t2 & _ & H).
  refine (for_in_shaped n m _ _ _ c c' Hc H).
  intros s inst s' _ Hs Hstep.
  destruct (length (qubits inst) =? 1)%nat.
  - apply bind_Ok in Hstep as (q0 & _ & Hstep).
    apply bind_Ok in Hstep as (k & _ & Hstep).
    apply bind_Ok in Hstep as (oq & _ & Hstep).
    apply bind_Ok in Hstep as (l & _ & Hstep).
    eapply append_all_shaped; eauto.
  - apply bind_Ok in Hstep as (mq & _ & Hstep).
    eapply append_shaped; eauto.
Qed.

Lemma transform_circuit_shaped (c c' : QuantumCircuit) :
  transform_circuit angles decompose c = Ok c' ->
  shaped (num_qubits c) (num_clbits c) c'
  /\ 0 <= num_qubits c /\ 0 <= num_clbits c.
Proof.
  unfold transform_circuit. intros H.
  apply bind_Ok in H as (c0 & H0 & H).
  apply new_circuit_shaped in H0 as (H0 & Hn & Hm & _).
  split; [|split; assumption].
  refine (for_in_shaped _ _ _ _ _ c0 c' H0 H).
  intros s node s' _ Hs. now apply transform_node_shaped.
Qed.

(** X10.  Whatever the Euler routine and the decomposer return, a circuit
    that [transform_circuit] returns has the registers of its input and is
    well-formed: the decomposed gates land on qubits of the original
    register, never outside it. *)
Theorem transform_circuit_well_formed (c c' : QuantumCircuit) :
  transform_circuit angles decompose c = Ok c' ->
  num_qubits c' = num_qubits c /\ num_clbits c' = num_clbits c
  /\ well_formed c'.
Proof. intros H. now apply transform_circuit_shaped in H as [H _]. Qed.

Lemma transform_node_skip (c : QuantumCircuit) (i : instruction) :
  String.eqb (name (operation i)) "measure" = true ->
  transform_node angles decompose c i = Ok c.
Proof. intros H. unfold transform_node. cbv zeta. now rewrite H. Qed.

(** X11.  Measurements do not matter to the transformer: a circuit and the
    same circuit with its measurements taken out are transformed alike. *)
Theorem transform_circuit_ignores_measure (n m : Z) (l : list instruction) :
  transform_circuit angles decompose (Circuit n m l)
  = transform_circuit angles decompose
      (Circuit n m (List.filter (fun i => negb (is_measure i)) l)).
Proof.
  unfold transform_circuit. simpl.
  destruct (new_circuit n m) as [c0|e]; [|reflexivity]. simpl.
  revert c0. induction l as [|i l IH]; intros c0; [reflexivity|].
  cbn [List.filter for_in]. unfold is_measure at 1.
  destruct (String.eqb (name (operation i)) "measure") eqn:Hm.
  - cbn [negb]. rewrite transform_node_skip by assumption.
    simpl. apply IH.
  - cbn [negb for_in].
    destruct (transform_node angles decompose c0 i); simpl; auto.
Qed.

Lemma prepend_prepend (d e : list instruction) (r : result QuantumCircuit) :
  prepend d (prepend e r) = prepend (d ++ e) r.
Proof. destruct r; simpl; [|reflexivity]. now rewrite app_assoc. Qed.

Lemma append_frame (n m : Z) (d : list instruction) (g : gate)
    (qs cs : list Z) :
  append (Circuit n m d) g qs cs
  = prepend d (append (Circuit n m []) g qs cs).
Proof.
  unfold append. simpl.
  destruct (map_result (bit_index n) qs) as [qs'|]; [|reflexivity]. simpl.
  destruct (map_result (bit_index m) cs) as [cs'|]; [|reflexivity]. simpl.
  destruct (measures g && _); [reflexivity|].
  destruct (negb _); [reflexivity|].
  destruct (has_duplicates qs'); reflexivity.
Qed.

Lemma for_in_frame {A : Type} (l : list A)
    (body : QuantumCircuit -> A -> result QuantumCircuit) :
  (forall x n m d,
     body (Circuit n m d) x = prepend d (body (Circuit n m []) x)) ->
  forall n m d,
    for_in l (Circuit n m d) body
    = prepend d (for_in l (Circuit n m []) body).
Proof.
  intros Hb. induction l as [|x l IH]; intros n m d; simpl.
  - now rewrite app_nil_r.
  - rewrite (Hb x n m d).
    destruct (body (Circuit n m []) x) as [[n1 m1 e1]|err]; [|reflexivity].
    simpl. rewrite (IH n1 m1 (d ++ e1)), (IH n1 m1 e1).
    now rewrite prepend_prepend.
Qed.

(** Case on the computation both sides of a frame equation start with. *)
Ltac frame_bind :=
  lazymatch goal with
  | |- mbind _ ?e = prepend _ (mbind _ ?e) =>
      destruct e; [simpl | reflexivity]
  end.

Lemma append_all_frame (n m : Z) (d : list instruction)
    (gates : list (gate * list Z)) :
  append_all (Circuit n m d) gates
  = prepend d (append_all (Circuit n m []) gates).
Proof.
  unfold append_all. apply for_in_frame.
  intros gq n' m' d'. apply append_frame.
Qed.

Lemma transform_node_frame (node : instruction) (n m : Z)
    (d : list instruction) :
  transform_node angles decompose (Circuit n m d) node
  = prepend d (transform_node angles decompose (Circuit n m []) node).
Proof.
  unfold transform_node.
  destruct (String.eqb (name (operation node)) "measure").
  { simpl. now rewrite app_nil_r. }
  destruct (bool_decide (lower (name (operation node)) ∈ basis_gates)).
  { apply append_frame. }
  destruct (length (qubits node) =? 1)%nat.
  { repeat frame_bind. apply append_all_frame. }
  destruct (String.eqb (name (operation node)) "cx").
  { apply append_frame. }
  cbv zeta. repeat frame_bind.
  apply for_in_frame. intros inst n' m' d'.
  destruct (length (qubits inst) =? 1)%nat.
  - repeat frame_bind. apply append_all_frame.
  - repeat frame_bind. apply append_frame.
Qed.

(** X12.  The transformer works instruction by instruction: the transform
    of two instruction lists in a row is the transform of the first followed
    by the transform of the second, and it fails if either does. *)
Theorem transform_circuit_app (n m : Z) (l1 l2 : list instruction) :
  transform_circuit angles decompose (Circuit n m (l1 ++ l2))
  = (c1 ← transform_circuit angles decompose (Circuit n m l1);
     prepend (data c1)
       (transform_circuit angles decompose (Circuit n m l2))).
Proof.
  unfold transform_circuit. simpl.
  destruct (new_circuit n m) as [c0|e] eqn:H0; [|reflexivity]. simpl.
  apply new_circuit_shaped in H0 as (Hs & _ & _ & Hd).
  destruct c0 as [n0 m0 d0]. destruct Hs as (Hn & Hm & _).
  simpl in Hn, Hm, Hd. subst n0 m0 d0.
  rewrite for_in_app.
  destruct (for_in l1 (Circuit n m []) (transform_node angles decompose))
    as [c1|e] eqn:H1; [|reflexivity]. simpl.
  assert (S1 : shaped n m c1).
  { refine (for_in_shaped n m _ _ _ _ c1 _ H1).
    - intros s node s' _ Hs. now apply transform_node_shaped.
    - repeat split. constructor. }
  destruct c1 as [n1 m1 e1]. destruct S1 as (Hn & Hm & _).
  simpl in Hn, Hm. subst n1 m1. simpl.
  apply for_in_frame. intros node n' m' d'. apply transform_node_frame.
Qed.

End TransformerShape.

Lemma transform_circuit_well_formed_cswap :
  Qiskit.num_qubits cswap_transformed = Qiskit.num_qubits cswap_circuit
  /\ Qiskit.num_clbits cswap_transformed = Qiskit.num_clbits cswap_circuit
  /\ well_formed cswap_transformed.
Proof.
  apply (transform_circuit_well_formed Collaborators.zyz_angles
           Collaborators.decompose cswap_circuit cswap_transformed).
  reflexivity.
Defined.

(** ** Circuits that are already in the basis *)

Section BasisCircuits.
Import Qiskit GateBasisTransformer.

Variable angles : gate -> result (R * R * R).
Variable decompose : QuantumCircuit -> result QuantumCircuit.

Lemma append_same (n m : Z) (d : list instruction) (i : instruction) :
  instruction_ok n m i -> clbits i = [] ->
  append (Circuit n m d) (operation i) (qubits i) []
  = Ok (Circuit n m (d ++ [i])).
Proof.
  intros (Hq & _ & Hnq & Hnc & Hdup) Hcl. unfold append. simpl.
  rewrite map_result_bit_index
    by (intros q Hin; rewrite List.Forall_forall in Hq; now apply Hq).
  simpl.
  rewrite (measures_false (operation i)) by (now rewrite <- Hnc, Hcl).
  rewrite Hnq, Nat.eqb_refl, <- Hnc, Hcl, Hdup. simpl.
  unfold push. simpl. destruct i; simpl in *. now subst.
Qed.

Lemma basis_named_no_clbits (n m : Z) (i : instruction) :
  basis_named i -> instruction_ok n m i -> clbits i = [].
Proof.
  intros Hb (_ & _ & _ & Hnc & _).
  apply basis_named_not_measure in Hb.
  destruct i as [g qs cs]. simpl in *.
  destruct g; simpl in *; try (now destruct cs); congruence.
Qed.

Lemma transform_node_copy (n m : Z) (d : list instruction)
    (i : instruction) :
  basis_named i -> instruction_ok n m i ->
  transform_node angles decompose (Circuit n m d) i
  = Ok (Circuit n m (d ++ [i])).
Proof.
  intros Hb Hok. unfold transform_node. cbv zeta.
  destruct (String.eqb_spec (name (operation i)) "measure") as [Hm|_].
  { now apply basis_named_not_measure in Hb. }
  rewrite bool_decide_eq_true_2 by exact Hb.
  apply append_same; [assumption|].
  now apply (basis_named_no_clbits n m).
Qed.

Lemma transform_nodes_copy (n m : Z) (l d : list instruction) :
  List.Forall basis_named l -> List.Forall (instruction_ok n m) l ->
  for_in l (Circuit n m d) (transform_node angles decompose)
  = Ok (Circuit n m (d ++ l)).
Proof.
  intros Hb. revert d. induction Hb as [|i l Hi Hl IH]; intros d Hok; simpl.
  - now rewrite app_nil_r.
  - apply List.Forall_cons_iff in Hok as [Hoki Hokl].
    rewrite transform_node_copy by assumption. simpl.
    rewrite IH by assumption. now rewrite <- app_assoc.
Qed.


(** X14.  Transforming twice is transforming once: when the decomposer
    handed back nothing outside the basis, the circuit the transformer
    returns is a fixed point of the transformer. *)
Theorem transform_circuit_idempotent (c c' : QuantumCircuit) :
  decomposes_to_basis decompose c ->
  transform_circuit angles decompose c = Ok c' ->
  transform_circuit angles decompose c' = Ok c'.
Proof.
  intros Hdec H.
  pose proof (transform_circuit_basis angles decompose c c' Hdec H) as Hb.
  apply transform_circuit_shaped in H as ((Hn & Hm & Hwf) & Hn0 & Hm0).
  unfold transform_circuit.
  rewrite new_circuit_ok by lia. simpl.
  rewrite transform_nodes_copy by assumption. now destruct c'.
Qed.

End BasisCircuits.


Lemma transform_circuit_idempotent_swap :
  GateBasisTransformer.transform_circuit
    Collaborators.zyz_angles Collaborators.decompose swap_transformed
  = Ok swap_transformed.
Proof.
  apply (transform_circuit_idempotent Collaborators.zyz_angles
           Collaborators.decompose swap_circuit swap_transformed).
  - apply standard_decomposes_to_basis. repeat constructor.
  - reflexivity.
Defined.

(** ** Circuits of standard gates, through the library decomposer *)

Section StandardCircuits.
Import Qiskit GateBasisTransformer DraperAdder.

Variable angles : gate -> result (R * R * R).

(** X15.  On a circuit of standard gates (no operator known by name only)
    the transformer, with the decomposer of the gate library, keeps its
    contract whenever it returns: every output gate is a basis gate, no
    measurement is left, and the gate counts add up to the number of
    instructions. *)
Theorem transform_standard_circuit (c c' : QuantumCircuit) :
  List.Forall (fun i => standard_gate (operation i) = true) (data c) ->
  transform_circuit angles Collaborators.decompose c = Ok c' ->
  List.Forall basis_named (data c')
  /\ List.Forall (fun i => name (operation i) <> "measure") (data c')
  /\ total_count (get_gate_counts c') = Z.of_nat (length (data c')).
Proof.
  intros Hstd H. apply standard_decomposes_to_basis in Hstd.
  repeat split.
  - eapply transform_circuit_basis; eauto.
  - eapply transform_circuit_no_measure; eauto.
  - eapply transform_circuit_counts; eauto.
Qed.




End StandardCircuits.

Lemma transform_standard_circuit_swap :
  List.Forall basis_named
    [Qiskit.Instruction Qiskit.CXGate [0; 1] [];
     Qiskit.Instruction Qiskit.CXGate [1; 0] [];
     Qiskit.Instruction Qiskit.CXGate [0; 1] []]
  /\ List.Forall (fun i => Qiskit.name (Qiskit.operation i) <> "measure")
       [Qiskit.Instruction Qiskit.CXGate [0; 1] [];
        Qiskit.Instruction Qiskit.CXGate [1; 0] [];
        Qiskit.Instruction Qiskit.CXGate [0; 1] []]
  /\ GateBasisTransformer.total_count
       (GateBasisTransformer.get_gate_counts
          (Qiskit.Circuit 2 1
             [Qiskit.Instruction Qiskit.CXGate [0; 1] [];
              Qiskit.Instruction Qiskit.CXGate [1; 0] [];
              Qiskit.Instruction Qiskit.CXGate [0; 1] []]))
     = 3.
Proof.
  apply (transform_standard_circuit Collaborators.zyz_angles
           (Qiskit.Circuit 2 1
              [Qiskit.Instruction Qiskit.SwapGate [0; 1] [];
               Qiskit.Instruction Qiskit.Measure [0] [0]])
           (Qiskit.Circuit 2 1
              [Qiskit.Instruction Qiskit.CXGate [0; 1] [];
               Qiskit.Instruction Qiskit.CXGate [1; 0] [];
               Qiskit.Instruction Qiskit.CXGate [0; 1] []])).
  - repeat constructor.
  - reflexivity.
Defined.


(** ** The dictionary of gate counts *)

Section CountsDictionary.
Import Qiskit GateBasisTransformer.

(** X17.  [get_gate_counts] returns a dictionary whose keys are exactly the
    five basis names, whatever the circuit holds; the value under a name is
    the number of instructions whose lower-cased operator name it is, and
    any other operator is passed over without an error. *)
Theorem get_gate_counts_entries (c : QuantumCircuit) (k : string) :
  dom (get_gate_counts c) = basis_gates
  /\ get_gate_counts c !! k
     = if decide (k ∈ basis_gates) then Some (occurrences k (data c))
       else None.
Proof.
  split; [|apply get_gate_counts_lookup].
  apply set_eq. intros j. rewrite elem_of_dom, get_gate_counts_lookup.
  destruct (decide (j ∈ basis_gates)) as [Hj|Hj]; split; intros H;
    try assumption; eauto; try contradiction.
  destruct H; discriminate.
Qed.

Lemma basis_instructions_bounds (l : list instruction) :
  0 <= basis_instructions l <= Z.of_nat (length l).
Proof.
  unfold basis_instructions.
  pose proof (List.filter_length_le
                (fun i => bool_decide (basis_named i)) l).
  lia.
Qed.

(** X18.  The counts never add up to more than the circuit holds: their
    sum is the number of instructions with a basis name, between 0 and the
    number of instructions, and an empty circuit gives 0. *)
Theorem get_gate_counts_total_bounds (c : QuantumCircuit) :
  total_count (get_gate_counts c) = basis_instructions (data c)
  /\ 0 <= total_count (get_gate_counts c) <= Z.of_nat (length (data c))
  /\ (data c = [] -> total_count (get_gate_counts c) = 0).
Proof.
  rewrite get_gate_counts_total. split; [reflexivity|]. split.
  - apply basis_instructions_bounds.
  - intros ->. reflexivity.
Qed.

Lemma occurrences_app (k : string) (l1 l2 : list instruction) :
  occurrences k (l1 ++ l2) = occurrences k l1 + occurrences k l2.
Proof.
  unfold occurrences. rewrite List.filter_app, length_app. lia.
Qed.

(** X19.  Counting is additive: under every basis name, the count of two
    instruction lists in a row is the sum of their counts, on whatever
    registers. *)
Theorem get_gate_counts_app (n m n1 m1 n2 m2 : Z)
    (l1 l2 : list instruction) (k : string) :
  k ∈ basis_gates ->
  exists v1 v2,
    get_gate_counts (Circuit n1 m1 l1) !! k = Some v1 /\
    get_gate_counts (Circuit n2 m2 l2) !! k = Some v2 /\
    get_gate_counts (Circuit n m (l1 ++ l2)) !! k = Some (v1 + v2).
Proof.
  intros Hk. exists (occurrences k l1), (occurrences k l2).
  rewrite !get_gate_counts_lookup.
  destruct (decide (k ∈ basis_gates)) as [_|Hn]; [|contradiction].
  simpl. now rewrite occurrences_app.
Qed.

Lemma get_gate_counts_app_cx :
  exists v1 v2,
    get_gate_counts (Circuit 2 0 [Instruction CXGate [0; 1] []]) !! "cx"
    = Some v1 /\
    get_gate_counts
      (Circuit 2 0 [Instruction HGate [0] []; Instruction CXGate [1; 0] []])
      !! "cx" = Some v2 /\
    get_gate_counts
      (Circuit 2 0 ([Instruction CXGate [0; 1] []]
                    ++ [Instruction HGate [0] [];
                        Instruction CXGate [1; 0] []])) !! "cx"
    = Some (v1 + v2).
Proof.
  apply (get_gate_counts_app 2 0 2 0 2 0).
  apply (bool_decide_unpack ("cx" ∈ basis_gates)). exact I.
Defined.

End CountsDictionary.

(** ** The expected bitstring and the success rate *)

Section SuccessRate.
Import NoiseAnalyzer GateBasisTransformer.

Lemma string_length_append (a b : string) :
  String.length (String.append a b)
  = (String.length a + String.length b)%nat.
Proof. induction a as [|c a IH]; simpl; [reflexivity|]. now rewrite IH. Qed.

Lemma binary_value_append (a b : string) (acc : Z) :
  binary_value (String.append a b) acc
  = binary_value b (binary_value a acc).
Proof.
  revert acc. induction a as [|c a IH]; intros acc; simpl; [reflexivity|].
  apply IH.
Qed.

Lemma zeros_length (n : nat) : String.length (zeros n) = n.
Proof. induction n as [|n IH]; simpl; congruence. Qed.

Lemma binary_value_zeros (n : nat) : binary_value (zeros n) 0 = 0.
Proof. induction n as [|n IH]; simpl; [reflexivity | assumption]. Qed.

Lemma binary_digits_length (p : positive) :
  Z.of_nat (String.length (binary_digits p)) = bit_length (Z.pos p).
Proof.
  unfold bit_length. simpl.
  induction p as [p IH|p IH|]; simpl; try reflexivity;
    rewrite string_length_append, Nat2Z.inj_add, IH; simpl;
    destruct p; simpl; lia.
Qed.

Lemma binary_digits_value (p : positive) :
  binary_value (binary_digits p) 0 = Z.pos p.
Proof.
  induction p as [p IH|p IH|]; simpl; try reflexivity;
    rewrite binary_value_append, IH; simpl; lia.
Qed.

Lemma format_binary_digits (x width : Z) :
  0 <= x -> 0 <= width ->
  exists s,
    format_binary x width = Ok s /\
    binary_value s 0 = x /\
    Z.of_nat (String.length s) = Z.max width (Z.max 1 (bit_length x)).
Proof.
  intros Hx Hw. unfold format_binary.
  replace (width <? 0) with false by (symmetry; apply Z.ltb_ge; lia).
  replace (x <? 0) with false by (symmetry; apply Z.ltb_ge; lia).
  eexists. split; [reflexivity|]. cbv zeta.
  rewrite !binary_value_append, !string_length_append, zeros_length.
  cbn [binary_value String.length]. rewrite binary_value_zeros.
  rewrite !Nat2Z.inj_add.
  destruct x as [|p|p]; [| |lia].
  - split; [reflexivity|].
    change (String.length "0") with 1%nat. change (bit_length 0) with 0.
    lia.
  - rewrite binary_digits_value. split; [reflexivity|].
    pose proof (binary_digits_length p) as Hl.
    pose proof (bit_length_nonneg (Z.pos p)).
    assert (1 <= bit_length (Z.pos p)).
    { unfold bit_length. change (Z.pos p =? 0) with false. cbv iota.
      change (Z.abs (Z.pos p)) with (Z.pos p).
      pose proof (Z.log2_nonneg (Z.pos p)). lia. }
    lia.
Qed.

(** X20.  For a non-negative number and width, the expected bitstring is
    the number in binary: it spells the number back, and its length is the
    width, or the bit length of the number where that is larger (one
    character for 0). *)
Theorem format_binary_round_trip (x width : Z) :
  0 <= x -> 0 <= width ->
  exists s,
    format_binary x width = Ok s /\
    binary_value s 0 = x /\
    Z.of_nat (String.length s) = Z.max width (Z.max 1 (bit_length x)).
Proof. exact (format_binary_digits x width). Qed.

Lemma format_binary_round_trip_8_4 :
  exists s,
    format_binary 8 4 = Ok s /\
    binary_value s 0 = 8 /\
    Z.of_nat (String.length s) = Z.max 4 (Z.max 1 (bit_length 8)).
Proof. apply (format_binary_round_trip 8 4); lia. Defined.

(** X21.  Two sums that fit the register have different expected
    bitstrings, each exactly [n] characters long, so the success rate
    counts one outcome and no other. *)
Theorem format_binary_injective (x y n : Z) :
  0 < n -> 0 <= x < 2 ^ n -> 0 <= y < 2 ^ n ->
  exists sx sy,
    format_binary x n = Ok sx /\ format_binary y n = Ok sy /\
    Z.of_nat (String.length sx) = n /\
    (sx = sy -> x = y).
Proof.
  intros Hn Hx Hy.
  destruct (format_binary_digits x n) as (sx & Hsx & Hvx & Hlx);
    [lia | lia |].
  destruct (format_binary_digits y n) as (sy & Hsy & Hvy & Hly);
    [lia | lia |].
  exists sx, sy. repeat split; try assumption.
  - rewrite Hlx.
    pose proof (bit_length_least x n ltac:(lia) ltac:(unfold Spec.fits; lia)).
    lia.
  - intros ->. congruence.
Qed.

Lemma format_binary_injective_3_8 :
  exists sx sy,
    format_binary 3 4 = Ok sx /\ format_binary 8 4 = Ok sy /\
    Z.of_nat (String.length sx) = 4 /\
    (sx = sy -> 3 = 8).
Proof. apply (format_binary_injective 3 8 4); lia. Defined.

Lemma total_count_nonneg (counts : gmap string Z) :
  (forall k v, counts !! k = Some v -> 0 <= v) ->
  0 <= total_count counts.
Proof.
  unfold total_count.
  apply (map_fold_weak_ind
           (fun (b : Z) (m : gmap string Z) =>
              (forall k v, m !! k = Some v -> 0 <= v) -> 0 <= b)).
  - intros _. lia.
  - intros i x m r Hi IH Hall.
    assert (0 <= x) by (apply (Hall i); apply lookup_insert_eq).
    assert (0 <= r).
    { apply IH. intros k v Hk. apply (Hall k).
      rewrite lookup_insert_ne; [assumption|]. intros ->. congruence. }
    lia.
Qed.

Lemma total_count_split (counts : gmap string Z) (k : string) (v : Z) :
  counts !! k = Some v ->
  total_count counts = v + total_count (delete k counts).
Proof.
  intros Hk. rewrite <- (insert_delete_id counts k v Hk) at 1.
  unfold total_count.
  rewrite map_fold_insert_L; try apply lookup_delete_eq; intros; lia.
Qed.

Lemma count_le_total (counts : gmap string Z) (k : string) :
  (forall j v, counts !! j = Some v -> 0 <= v) ->
  0 <= default 0 (counts !! k) <= total_count counts.
Proof.
  intros Hall. destruct (counts !! k) as [v|] eqn:Hk; simpl.
  - rewrite (total_count_split counts k v Hk).
    assert (0 <= total_count (delete k counts)).
    { apply total_count_nonneg. intros j w Hj.
      apply lookup_delete_Some in Hj as [_ Hj]. now apply (Hall j). }
    specialize (Hall k v Hk). lia.
  - split; [lia|]. now apply total_count_nonneg.
Qed.

(** X22.  On counts that are not negative, [_get_success_rate] returns a
    rate between 0 and 1 for every width that is not negative; the rate is
    0 when the expected bitstring is no key of the counts, and also when
    there are no counts at all (no division by zero). *)
Theorem get_success_rate_range (counts : gmap string Z)
    (expected_sum n_qubits : Z) :
  0 <= n_qubits ->
  (forall k v, counts !! k = Some v -> 0 <= v) ->
  exists s rate,
    format_binary expected_sum n_qubits = Ok s /\
    _get_success_rate counts expected_sum n_qubits = Ok rate /\
    (0 <= rate <= 1)%Q /\
    (counts !! s = None -> (rate == 0)%Q) /\
    (total_count counts = 0 -> (rate == 0)%Q).
Proof.
  intros Hn Hall. unfold _get_success_rate.
  assert (Hs : exists s, format_binary expected_sum n_qubits = Ok s).
  { unfold format_binary.
    replace (n_qubits <? 0) with false by (symmetry; apply Z.ltb_ge; lia).
    eauto. }
  destruct Hs as [s Hs]. rewrite Hs. simpl.
  exists s. eexists. split; [reflexivity|]. split; [reflexivity|].
  pose proof (count_le_total counts s Hall) as [H0 H1].
  destruct (Z.ltb_spec 0 (total_count counts)) as [Hpos|Hzero].
  - repeat split.
    + unfold Qle. simpl. lia.
    + unfold Qle. simpl. rewrite Z2Pos.id by assumption. lia.
    + intros ->. reflexivity.
    + intros H. lia.
  - repeat split; try reflexivity; unfold Qle; simpl; lia.
Qed.

Lemma get_success_rate_range_example :
  exists s rate,
    format_binary 8 4 = Ok s /\
    _get_success_rate {[ "1000" := 990; "0000" := 10 ]} 8 4 = Ok rate /\
    (0 <= rate <= 1)%Q /\
    (({[ "1000" := 990; "0000" := 10 ]} : gmap string Z) !! s = None
     -> (rate == 0)%Q) /\
    (total_count {[ "1000" := 990; "0000" := 10 ]} = 0 -> (rate == 0)%Q).
Proof.
  apply (get_success_rate_range {[ "1000" := 990; "0000" := 10 ]} 8 4);
    [lia|].
  intros k v Hk.
  apply lookup_insert_Some in Hk as [[_ <-]|[_ Hk]]; [lia|].
  apply lookup_singleton_Some in Hk as [_ <-]. lia.
Defined.

End SuccessRate.

(** ** The suggested noise ceiling *)

Section MaxNoise.
Import NoiseAnalyzer.

Lemma max_float_cases (a b : Q) :
  (max_float a b = a /\ (b <= a)%Q) \/ (max_float a b = b /\ (a < b)%Q).
Proof.
  unfold max_float. destruct (Qle_bool b a) eqn:H.
  - left. split; [reflexivity|]. now apply Qle_bool_iff.
  - right. split; [reflexivity|]. apply Qnot_le_lt. intros Hle.
    apply Qle_bool_iff in Hle. congruence.
Qed.

Lemma suggest_max_noise_fold (results done : list analysis) (m1 m2 : Q) :
  ceiling_of noise_p1 done m1 -> ceiling_of noise_p2 done m2 ->
  let r := fold_left (fun (acc : Q * Q) analysis =>
    let (max_p1, max_p2) := acc in
    if Qle_bool success_threshold (success_rate analysis)
    then (max_float max_p1 (noise_p1 analysis),
          max_float max_p2 (noise_p2 analysis))
    else (max_p1, max_p2)) results (m1, m2) in
  ceiling_of noise_p1 (done ++ results) (fst r)
  /\ ceiling_of noise_p2 (done ++ results) (snd r).
Proof.
  revert done m1 m2.
  induction results as [|a results IH]; intros done m1 m2 H1 H2.
  - simpl. now rewrite app_nil_r.
  - cbn [fold_left].
    replace (done ++ a :: results) with ((done ++ [a]) ++ results)
      by now rewrite <- app_assoc.
    destruct (Qle_bool success_threshold (success_rate a)) eqn:Hr.
    + apply Qle_bool_iff in Hr. apply IH.
      * destruct H1 as (H0 & Hub & Hat).
        destruct (max_float_cases m1 (noise_p1 a)) as [[-> Hle]|[-> Hlt]].
        -- repeat split; [assumption| |].
           ++ intros x Hx Hrel. apply in_app_iff in Hx as [Hx|[<-|[]]];
                [now apply Hub | assumption].
           ++ destruct Hat as [->|(x & Hx & Hrel & ->)]; [now left|].
              right. exists x. repeat split; try assumption.
              apply in_app_iff. now left.
        -- repeat split.
           ++ apply Qlt_le_weak. eapply Qle_lt_trans; eassumption.
           ++ intros x Hx Hrel. apply in_app_iff in Hx as [Hx|[<-|[]]].
              ** apply Qlt_le_weak. eapply Qle_lt_trans; [|exact Hlt].
                 now apply Hub.
              ** apply Qle_refl.
           ++ right. exists a. repeat split; try assumption.
              apply in_app_iff. right. now left.
      * destruct H2 as (H0 & Hub & Hat).
        destruct (max_float_cases m2 (noise_p2 a)) as [[-> Hle]|[-> Hlt]].
        -- repeat split; [assumption| |].
           ++ intros x Hx Hrel. apply in_app_iff in Hx as [Hx|[<-|[]]];
                [now apply Hub | assumption].
           ++ destruct Hat as [->|(x & Hx & Hrel & ->)]; [now left|].
              right. exists x. repeat split; try assumption.
              apply in_app_iff. now left.
        -- repeat split.
           ++ apply Qlt_le_weak. eapply Qle_lt_trans; eassumption.
           ++ intros x Hx Hrel. apply in_app_iff in Hx as [Hx|[<-|[]]].
              ** apply Qlt_le_weak. eapply Qle_lt_trans; [|exact Hlt].
                 now apply Hub.
              ** apply Qle_refl.
           ++ right. exists a. repeat split; try assumption.
              apply in_app_iff. right. now left.
    + assert (Hnot : ~ reliable a).
      { unfold reliable. intros Hle. apply Qle_bool_iff in Hle. congruence. }
      apply IH.
      * destruct H1 as (H0 & Hub & Hat). repeat split; [assumption| |].
        -- intros x Hx Hrel. apply in_app_iff in Hx as [Hx|[<-|[]]];
             [now apply Hub | contradiction].
        -- destruct Hat as [->|(x & Hx & Hrel & ->)]; [now left|].
           right. exists x. repeat split; try assumption.
           apply in_app_iff. now left.
      * destruct H2 as (H0 & Hub & Hat). repeat split; [assumption| |].
        -- intros x Hx Hrel. apply in_app_iff in Hx as [Hx|[<-|[]]];
             [now apply Hub | contradiction].
        -- destruct Hat as [->|(x & Hx & Hrel & ->)]; [now left|].
           right. exists x. repeat split; try assumption.
           apply in_app_iff. now left.
Qed.

(** X23.  [_suggest_max_noise] returns, for each of the two error
    probabilities, a ceiling over the noise levels that reached the 95%
    threshold: it is not negative, no reliable level lies above it, and it
    is the probability of one of the reliable levels unless it is 0, which
    it is when no level is reliable. *)
Theorem suggest_max_noise_ceiling (results : list analysis) :
  ceiling_of noise_p1 results (fst (_suggest_max_noise results))
  /\ ceiling_of noise_p2 results (snd (_suggest_max_noise results))
  /\ ((forall a, In a results -> ~ reliable a) ->
      _suggest_max_noise results = (0%Q, 0%Q)).
Proof.
  assert (H0 : forall f, ceiling_of f [] 0%Q).
  { intros f. repeat split; [apply Qle_refl | intros a [] | now left]. }
  pose proof (suggest_max_noise_fold results [] 0%Q 0%Q
                (H0 noise_p1) (H0 noise_p2)) as [H1 H2].
  split; [exact H1|]. split; [exact H2|].
  intros Hnone. unfold _suggest_max_noise.
  induction results as [|a results IH]; [reflexivity|].
  cbn [fold_left].
  replace (Qle_bool success_threshold (success_rate a)) with false.
  - apply IH; try (intros; apply Hnone; now right).
    + apply (suggest_max_noise_fold results [] 0%Q 0%Q
               (H0 noise_p1) (H0 noise_p2)).
    + apply (suggest_max_noise_fold results [] 0%Q 0%Q
               (H0 noise_p1) (H0 noise_p2)).
  - symmetry. apply not_true_is_false. intros Hle.
    apply Qle_bool_iff in Hle. apply (Hnone a); [now left | exact Hle].
Qed.

End MaxNoise.

(** ** The noise overlay *)

Section NoiseOverlay.
Import Qiskit QuantumNoise.

Variable G : Type.
Variable random_random : G -> Q * G.
Variable random_choice : G -> nat -> nat * G.

Local Abbreviation noise_on_qubit :=
  (noise_on_qubit G random_random random_choice).
Local Abbreviation noise_on_instruction :=
  (noise_on_instruction G random_random random_choice).
Local Abbreviation add_quantum_noise :=
  (add_quantum_noise G random_random random_choice).
Local Abbreviation sample := (sample G random_random random_choice).
Local Abbreviation analyze_noise_effect :=
  (analyze_noise_effect G random_random random_choice).

(** X24.  The probability check comes first: when one of the two
    probabilities is outside [[0, 1]], [add_quantum_noise] raises its own
    error for every circuit and every state of the generator, also for a
    circuit that could not be overlaid. *)
Theorem add_quantum_noise_guard (c : QuantumCircuit) (p1 p2 : Q) (g : G) :
  ~ ((0 <= p1 <= 1)%Q /\ (0 <= p2 <= 1)%Q) ->
  add_quantum_noise c p1 p2 g = Raise ValueError.
Proof.
  intros Hn. unfold QuantumNoise.add_quantum_noise, is_probability.
  destruct (Qle_bool 0 p1) eqn:H1, (Qle_bool p1 1) eqn:H2,
           (Qle_bool 0 p2) eqn:H3, (Qle_bool p2 1) eqn:H4;
    try reflexivity.
  exfalso. apply Hn. apply Qle_bool_iff in H1, H2, H3, H4.
  repeat split; assumption.
Qed.

Lemma for_in_raise {S A : Type} (l : list A) (body : S -> A -> result S)
    (P : A -> Prop) :
  (forall s x, P x -> exists e, body s x = Raise e) ->
  List.Exists P l ->
  forall s, exists e, for_in l s body = Raise e.
Proof.
  intros Hb Hex. induction Hex as [x l Hx|x l Hex IH]; intros s; simpl.
  - destruct (Hb s x Hx) as [e ->]. simpl. eauto.
  - destruct (body s x) as [s'|e]; simpl; [apply IH | eauto].
Qed.

Lemma append_measure_without_clbit (c : QuantumCircuit) (qs : list Z) :
  exists e, append c Measure qs [] = Raise e.
Proof.
  unfold append.
  destruct (map_result (bit_index (num_qubits c)) qs) as [qs'|e];
    simpl; [|eauto].
  rewrite orb_true_r. simpl. eauto.
Qed.

(** X25.  The overlay copies an operator with its qubits but without its
    classical bits, so a circuit that holds a measurement cannot be
    overlaid: [add_quantum_noise] fails on it for every pair of
    probabilities and every state of the generator. *)
Theorem add_quantum_noise_rejects_measure (c : QuantumCircuit) (p1 p2 : Q)
    (g : G) :
  List.Exists (fun i => operation i = Measure) (data c) ->
  exists e, add_quantum_noise c p1 p2 g = Raise e.
Proof.
  intros Hex. unfold QuantumNoise.add_quantum_noise.
  destruct (_ || _); [eauto|].
  destruct (new_circuit _ _) as [noisy|e]; simpl; [|eauto].
  apply (for_in_raise _ _ (fun i => operation i = Measure)); [|exact Hex].
  intros [s gs] i Hi. unfold QuantumNoise.noise_on_instruction. rewrite Hi.
  destruct (append_measure_without_clbit s (qubits i)) as [e ->].
  simpl. eauto.
Qed.

Lemma measure_all_shaped (n m : Z) (c c' : QuantumCircuit) :
  0 <= n -> shaped n m c -> measure_all c = Ok c' -> shaped n (m + n) c'.
Proof.
  intros Hn (Hq & Hc & Hwf) H. unfold measure_all, barrier in H.
  apply bind_Ok in H as (c1 & H1 & H). simpl in H1.
  assert (S0 : shaped n (m + n)
                 (Circuit (num_qubits c) (num_clbits c + num_qubits c)
                    (data c))).
  { rewrite Hq, Hc. repeat split. unfold well_formed in *. simpl.
    rewrite Hq, Hc in Hwf.
    eapply List.Forall_impl; [|exact Hwf].
    intros i. apply instruction_ok_mono; lia. }
  eapply measure_shaped; [|exact H].
  eapply append_shaped; [exact S0 | exact H1].
Qed.

Lemma noise_on_qubit_shaped (n m : Z) (p : Q) (c c' : QuantumCircuit)
    (g g' : G) (q : Z) :
  0 <= n -> shaped n m c ->
  noise_on_qubit p (c, g) q = Ok (c', g') ->
  shaped n (m + n) c'.
Proof.
  intros Hn Hc H. unfold QuantumNoise.noise_on_qubit in H.
  destruct (random_random g) as [r g1].
  apply bind_Ok in H as ([c1 g2] & H1 & H).
  apply bind_Ok in H as (c2 & H2 & H). injection H as <- <-.
  simpl in H2. apply (measure_all_shaped n m c1); [assumption| |exact H2].
  destruct (negb (Qle_bool p r)).
  - destruct (random_choice g1 _) as [k g3].
    apply bind_Ok in H1 as (c3 & H3 & H1). injection H1 as <- <-.
    destruct (String.eqb _ "x"); [eapply append_shaped; eauto|].
    destruct (String.eqb _ "y"); eapply append_shaped; eauto.
  - now injection H1 as <- <-.
Qed.

Lemma noise_on_qubits_shaped (n : Z) (p : Q) (qs : list Z) :
  0 <= n ->
  forall m c g c' g',
    shaped n m c ->
    for_in qs (c, g) (noise_on_qubit p) = Ok (c', g') ->
    shaped n (m + n * Z.of_nat (length qs)) c'.
Proof.
  intros Hn. induction qs as [|q qs IH]; intros m c g c' g' Hc H.
  - simpl in H. injection H as <- <-.
    replace (m + n * Z.of_nat (length (@nil Z))) with m by (simpl; lia).
    exact Hc.
  - cbn [for_in] in H. apply bind_Ok in H as ([c1 g1] & H1 & H).
    apply (noise_on_qubit_shaped n m) in H1; [|assumption..].
    apply (IH _ _ _ _ _ H1) in H.
    replace (m + n * Z.of_nat (length (q :: qs)))
      with (m + n + n * Z.of_nat (length qs)); [exact H|].
    cbn [length]. lia.
Qed.

Lemma noise_on_instruction_shaped (n m : Z) (p1 p2 : Q)
    (c c' : QuantumCircuit) (g g' : G) (i : instruction) :
  0 <= n -> shaped n m c ->
  noise_on_instruction p1 p2 (c, g) i = Ok (c', g') ->
  shaped n (m + n * Z.of_nat (length (qubits i))) c'.
Proof.
  intros Hn Hc H. unfold QuantumNoise.noise_on_instruction in H.
  apply bind_Ok in H as (c0 & H0 & H).
  apply (append_shaped n m) in H0; [|assumption].
  exact (noise_on_qubits_shaped n _ _ Hn _ _ _ _ _ H0 H).
Qed.

Lemma noise_on_instructions_shaped (n : Z) (p1 p2 : Q)
    (l : list instruction) :
  0 <= n ->
  forall m c g c' g',
    shaped n m c ->
    for_in l (c, g) (noise_on_instruction p1 p2) = Ok (c', g') ->
    shaped n (m + n * qubit_slots l) c'.
Proof.
  intros Hn. induction l as [|i l IH]; intros m c g c' g' Hc H.
  - simpl in H. injection H as <- <-.
    replace (m + n * qubit_slots []) with m by (simpl; lia). exact Hc.
  - cbn [for_in] in H. apply bind_Ok in H as ([c1 g1] & H1 & H).
    apply (noise_on_instruction_shaped n m) in H1; [|assumption..].
    apply (IH _ _ _ _ _ H1) in H.
    replace (m + n * qubit_slots (i :: l))
      with (m + n * Z.of_nat (length (qubits i)) + n * qubit_slots l);
      [exact H|].
    cbn [qubit_slots fold_right]. fold (qubit_slots l). lia.
Qed.

(** X26.  A circuit the overlay returns is well-formed and keeps the qubit
    register, but its classical register has grown: one full-width
    register for every qubit argument of every instruction, because
    [measure_all] runs inside the loop over the qubits. *)
Theorem add_quantum_noise_registers (c noisy : QuantumCircuit)
    (p1 p2 : Q) (g g' : G) :
  add_quantum_noise c p1 p2 g = Ok (noisy, g') ->
  num_qubits noisy = num_qubits c
  /\ num_clbits noisy
     = num_clbits c + num_qubits c * qubit_slots (data c)
  /\ well_formed noisy.
Proof.
  unfold QuantumNoise.add_quantum_noise. destruct (_ || _); [discriminate|].
  intros H. apply bind_Ok in H as (c0 & H0 & H).
  apply new_circuit_shaped in H0 as (S0 & Hn & _).
  exact (noise_on_instructions_shaped _ p1 p2 _ Hn _ _ _ _ _ S0 H).
Qed.

Lemma append_extends (c c' : QuantumCircuit) (g0 : gate) (qs cs : list Z) :
  append c g0 qs cs = Ok c' -> extends c c'.
Proof.
  intros H. apply append_instruction in H as (i & -> & _).
  exists [i]. reflexivity.
Qed.

Lemma extends_trans (c1 c2 c3 : QuantumCircuit) :
  extends c1 c2 -> extends c2 c3 -> extends c1 c3.
Proof.
  intros [e1 H1] [e2 H2]. exists (e1 ++ e2).
  now rewrite H2, H1, app_assoc.
Qed.

Lemma extends_refl (c : QuantumCircuit) : extends c c.
Proof. exists []. now rewrite app_nil_r. Qed.

Lemma measure_extends (c c' : QuantumCircuit) (qs cs : list Z) :
  measure c qs cs = Ok c' -> extends c c'.
Proof.
  intros H. unfold measure in H.
  apply bind_Ok in H as (qs' & _ & H).
  apply bind_Ok in H as (cs' & _ & H).
  destruct (length qs' =? length cs')%nat.
  - refine (for_in_invariant (extends c) _ _ _ c c' (extends_refl c) H).
    intros s x s' _ Hs Hx. eapply extends_trans; [exact Hs|].
    eapply append_extends; eauto.
  - destruct (_ && _); [|discriminate].
    refine (for_in_invariant (extends c) _ _ _ c c' (extends_refl c) H).
    intros s x s' _ Hs Hx. eapply extends_trans; [exact Hs|].
    eapply append_extends; eauto.
Qed.

Lemma measure_all_extends (c c' : QuantumCircuit) :
  measure_all c = Ok c' -> extends c c'.
Proof.
  intros H. unfold measure_all, barrier in H.
  apply bind_Ok in H as (c1 & H1 & H).
  apply append_extends in H1. apply measure_extends in H.
  destruct H1 as [e1 H1]. destruct H as [e2 H2]. simpl in H1.
  exists (e1 ++ e2). now rewrite H2, H1, app_assoc.
Qed.

Lemma noise_on_qubit_extends (p : Q) (c c' : QuantumCircuit) (g g' : G)
    (q : Z) :
  noise_on_qubit p (c, g) q = Ok (c', g') -> extends c c'.
Proof.
  intros H. unfold QuantumNoise.noise_on_qubit in H.
  destruct (random_random g) as [r g1].
  apply bind_Ok in H as ([c1 g2] & H1 & H).
  apply bind_Ok in H as (c2 & H2 & H). injection H as <- <-.
  simpl in H2. apply measure_all_extends in H2.
  eapply extends_trans; [|exact H2].
  destruct (negb (Qle_bool p r)).
  - destruct (random_choice g1 _) as [k g3].
    apply bind_Ok in H1 as (c3 & H3 & H1). injection H1 as <- <-.
    destruct (String.eqb _ "x"); [eapply append_extends; eauto|].
    destruct (String.eqb _ "y"); eapply append_extends; eauto.
  - injection H1 as <- <-. apply extends_refl.
Qed.

Lemma noise_on_instruction_keeps (n m : Z) (p1 p2 : Q)
    (c c' : QuantumCircuit) (g g' : G) (i : instruction) :
  num_qubits c = n -> instruction_ok n m i ->
  noise_on_instruction p1 p2 (c, g) i = Ok (c', g') ->
  exists ext, data c' = data c ++ i :: ext.
Proof.
  intros Hn (Hq & _ & _ & Hnc & _) H.
  unfold QuantumNoise.noise_on_instruction in H.
  apply bind_Ok in H as (c0 & H0 & H).
  assert (Hext : extends c0 c').
  { refine (for_in_invariant (fun s => extends c0 (fst s)) _ _ _
              (c0, g) (c', g') (extends_refl c0) H).
    intros [s gs] q [s' gs'] _ Hs Hstep. simpl in *.
    eapply extends_trans; [exact Hs|].
    eapply noise_on_qubit_extends; eauto. }
  destruct Hext as [ext Hext]. exists ext. rewrite Hext.
  unfold append in H0.
  rewrite Hn, (map_result_bit_index n (qubits i)) in H0
    by (intros q Hin; rewrite List.Forall_forall in Hq; now apply Hq).
  simpl in H0.
  destruct (measures _ && _); [discriminate|].
  destruct (negb _) eqn:Har; [discriminate|].
  destruct (has_duplicates (qubits i)); [discriminate|].
  injection H0 as <-. simpl. rewrite <- app_assoc. simpl.
  apply negb_false_iff, andb_true_iff in Har as [_ Hz].
  destruct i as [gi qi ci]. simpl in *.
  destruct (gate_num_clbits gi); [|discriminate].
  destruct ci; [reflexivity | discriminate].
Qed.

Lemma noise_on_instructions_keep (n m0 : Z) (p1 p2 : Q)
    (noisy : QuantumCircuit) (g' : G) (l : list instruction) :
  0 <= n ->
  forall m s gs,
    List.Forall (instruction_ok n m0) l ->
    shaped n m s ->
    for_in l (s, gs) (noise_on_instruction p1 p2) = Ok (noisy, g') ->
    exists rest, data noisy = data s ++ rest /\ l `sublist_of` rest.
Proof.
  intros Hpos. induction l as [|i l IH]; intros m s gs Hl Hs Hrun.
  - simpl in Hrun. injection Hrun as <- <-. exists [].
    split; [now rewrite app_nil_r | constructor].
  - apply List.Forall_cons_iff in Hl as [Hi Hl].
    cbn [for_in] in Hrun. apply bind_Ok in Hrun as ([s1 g1] & H1 & Hrun).
    destruct (noise_on_instruction_keeps _ _ _ _ _ _ _ _ _
                (proj1 Hs) Hi H1) as [ext Hext].
    apply (noise_on_instruction_shaped n m) in H1; [|assumption..].
    destruct (IH _ s1 g1 Hl H1 Hrun) as (rest & Hrest & Hsub).
    exists (i :: ext ++ rest). split.
    + rewrite Hrest, Hext, <- app_assoc. reflexivity.
    + constructor. now apply sublist_inserts_l.
Qed.

(** X27.  Noise only adds: every instruction of a well-formed input is in
    the overlaid circuit, unchanged and in the original order, whatever the
    generator draws. *)
Theorem add_quantum_noise_keeps_gates (c noisy : QuantumCircuit)
    (p1 p2 : Q) (g g' : G) :
  well_formed c ->
  add_quantum_noise c p1 p2 g = Ok (noisy, g') ->
  data c `sublist_of` data noisy.
Proof.
  intros Hwf. unfold QuantumNoise.add_quantum_noise.
  destruct (_ || _); [discriminate|].
  intros H. apply bind_Ok in H as (c0 & H0 & H).
  apply new_circuit_shaped in H0 as (S0 & Hpos & _ & Hd).
  destruct (noise_on_instructions_keep _ _ p1 p2 noisy g' (data c) Hpos
              _ c0 g Hwf S0 H) as (rest & Hrest & Hsub).
  rewrite Hrest, Hd. exact Hsub.
Qed.
















(** X29.  [analyze_noise_effect] ends in a division by zero exactly when it
    is asked for no sample at all; the circuit and the probabilities, valid
    or not, are not looked at then. *)
Theorem analyze_noise_effect_zero_division (c : QuantumCircuit)
    (p1 p2 : Q) (num_samples : Z) (g : G) :
  analyze_noise_effect c p1 p2 num_samples g = ZeroDivisionError
  <-> num_samples = 0.
Proof.
  unfold QuantumNoise.analyze_noise_effect. cbv zeta. split.
  - destruct (for_in _ _ _) as [[t g']|e]; [|discriminate].
    destruct (Z.eqb_spec num_samples 0); [trivial | discriminate].
  - intros ->. reflexivity.
Qed.


End NoiseOverlay.

Lemma add_quantum_noise_guard_example :
  QuantumNoise.add_quantum_noise unit draw_zero choose_first
    bell_circuit (3 # 2) (1 # 100) tt
  = Raise ValueError.
Proof.
  apply add_quantum_noise_guard.
  intros [[_ H] _]. apply Qle_bool_iff in H. discriminate H.
Defined.

Lemma add_quantum_noise_rejects_measure_example :
  exists e,
    QuantumNoise.add_quantum_noise unit (fun g => (0%Q, g))
      (fun g _ => (0%nat, g))
      (Qiskit.Circuit 1 1
         [Qiskit.Instruction Qiskit.HGate [0] [];
          Qiskit.Instruction Qiskit.Measure [0] [0]])
      (1 # 100) (2 # 100) tt
    = Raise e.
Proof.
  apply add_quantum_noise_rejects_measure.
  right. left. reflexivity.
Defined.

Lemma add_quantum_noise_registers_bell :
  exists noisy,
    QuantumNoise.add_quantum_noise unit draw_zero choose_first
      bell_circuit (1 # 100) (2 # 100) tt = Ok (noisy, tt)
    /\ Qiskit.num_qubits noisy = 2
    /\ Qiskit.num_clbits noisy
       = 0 + 2 * qubit_slots (Qiskit.data bell_circuit)
    /\ well_formed noisy.
Proof.
  eexists. split; [vm_compute; reflexivity|].
  apply (add_quantum_noise_registers unit draw_zero choose_first
           bell_circuit _ (1 # 100) (2 # 100) tt tt).
  vm_compute. reflexivity.
Defined.

Lemma add_quantum_noise_keeps_gates_bell :
  exists noisy,
    QuantumNoise.add_quantum_noise unit draw_half choose_first
      bell_circuit (1 # 100) (2 # 100) tt = Ok (noisy, tt)
    /\ Qiskit.data bell_circuit `sublist_of` Qiskit.data noisy.
Proof.
  eexists. split; [vm_compute; reflexivity|].
  apply (add_quantum_noise_keeps_gates unit draw_half choose_first
           bell_circuit _ (1 # 100) (2 # 100) tt tt).
  - repeat constructor; simpl; lia.
  - vm_compute. reflexivity.
Defined.


